(** * aptly: package queries (deb/query.go) and publishing (debian/publish.go)

    A shallow embedding of the query engine and of the publish pipeline,
    with the properties of the specification stated over it.

    Go maps are [gmap]s, Go strings are [string]s, a Go [int] relation code
    is a [Z].  A call that can [panic] returns a [result]; a call that
    returns a Go [error] returns a sum. *)

From stdpp Require Import gmap strings list fin_maps.
From Stdlib Require Import Ascii ZArith DecimalString.

Open Scope Z_scope.

Set Warnings "-clear-no-such-hyp".

(** ** Panics *)

(** The outcome of a Go call that either returns or panics with a message. *)
Inductive result (A : Type) : Type :=
  | Ok (a : A)
  | Panic (msg : string).
Arguments Ok {A} a.
Arguments Panic {A} msg.

#[global] Instance result_eq_dec {A} `{EqDecision A} : EqDecision (result A).
Proof. solve_decision. Defined.

#[global] Instance result_ret : MRet result := fun _ a => Ok a.
#[global] Instance result_bind : MBind result := fun _ _ f r =>
  match r with
  | Ok a => f a
  | Panic msg => Panic msg
  end.

Definition is_Ok {A} (r : result A) : Prop := ∃ a, r = Ok a.

(** Go's [x && y] and [x || y]: the right operand is evaluated only when the
    left one does not decide the result, so a panic of the right operand is
    seen only then. *)
Definition go_and (x y : result bool) : result bool :=
  b ← x; if b : bool then y else Ok false.
Definition go_or (x y : result bool) : result bool :=
  b ← x; if b : bool then Ok true else y.
Definition go_not (x : result bool) : result bool :=
  b ← x; Ok (negb b).

(** ** Packages, dependencies and package lists *)

(** The fields of [Package] that the two source files read. *)
Record Package : Type := mkPackage {
  Name : string;
  Version : string;
  Architecture : string;
  Control : list (string * string)
}.

#[global] Instance Package_eq_dec : EqDecision Package.
Proof. solve_decision. Defined.

(** [Dependency{Pkg: .., Relation: .., Version: ..}] as built at
    query.go:117. *)
Record Dependency : Type := mkDependency {
  DepPkg : string;
  DepRelation : Z;
  DepVersion : string
}.

(** Modelled from the spec: the relation constants ([VersionDontCare] ...
    [VersionRegexp]) are declared outside src/.  The spec lists the relations
    as don't-care, equal, greater, greater-or-equal, less, less-or-equal,
    pattern-match, regexp; they are numbered in that order.  Only their being
    pairwise distinct matters below. *)
Definition VersionDontCare : Z := 0.
Definition VersionEqual : Z := 1.
Definition VersionGreater : Z := 2.
Definition VersionGreaterOrEqual : Z := 3.
Definition VersionLess : Z := 4.
Definition VersionLessOrEqual : Z := 5.
Definition VersionPatternMatch : Z := 6.
Definition VersionRegexp : Z := 7.

(** A relation code that is none of the eight constants. *)
Definition unknown_relation (rel : Z) : Prop := rel < 0 ∨ 7 < rel.

(** Modelled from the spec: [Package.MatchesArchitecture] is not under src/.
    "Architecture [all] packages match every concrete architecture
    filter." *)
Definition MatchesArchitecture (pkg : Package) (arch : string) : bool :=
  bool_decide (Architecture pkg = "all") || bool_decide (Architecture pkg = arch).

(** The composite key of query.go:193:
    ["P"+q.Arch+" "+q.Pkg+" "+q.Version]. *)
Definition pkgKey (arch name version : string) : string :=
  "P" +:+ arch +:+ " " +:+ name +:+ " " +:+ version.

(** The key under which a package list stores a package. *)
Definition Key (pkg : Package) : string :=
  pkgKey (Architecture pkg) (Name pkg) (Version pkg).

(** [PackageList.packages]: a Go map from key to package. *)
Abbreviation PackageList := (gmap string Package).

Definition NewPackageList : PackageList := ∅.

(** The packages of a list in the order a [range] over the map visits
    them.  Go leaves that order unspecified; it is fixed here to the order
    of [map_to_list]. *)
Definition packages (lst : PackageList) : list Package :=
  (map_to_list lst).*2.

(** Modelled from the spec: [PackageList.Add] is not under src/.  The list is
    keyed by the composite key and keys are unique: a package is stored under
    its key, and a key already present keeps its package (duplicate-safe). *)
Definition Add (pkg : Package) (lst : PackageList) : PackageList :=
  match lst !! Key pkg with
  | Some _ => lst
  | None => <[Key pkg := pkg]> lst
  end.

(** Modelled from the spec: [PackageList.Append] is not under src/.
    "append/union of two lists", "union (with duplicate-safe append)": every
    package of [pl] is added to the receiver. *)
Definition Append (lst pl : PackageList) : PackageList :=
  foldl (λ acc pkg, Add pkg acc) lst (packages pl).

(** Modelled from the spec: [PackageList.Scan] is not under src/.  "a full
    scan of the list applying [Matches]": a new list receives every package
    on which the predicate returns true; a panic of the predicate ends the
    scan. *)
Fixpoint scan_from (matches : Package → result bool) (pkgs : list Package)
    (acc : PackageList) : result PackageList :=
  match pkgs with
  | [] => Ok acc
  | pkg :: rest =>
      b ← matches pkg;
      scan_from matches rest (if b : bool then Add pkg acc else acc)
  end.

Definition Scan (lst : PackageList) (matches : Package → result bool)
  : result PackageList :=
  scan_from matches (packages lst) NewPackageList.

(** ** The query tree of deb/query.go *)

Inductive PackageQuery : Type :=
  | OrQuery (L R : PackageQuery)
  | AndQuery (L R : PackageQuery)
  | NotQuery (Q : PackageQuery)
  | FieldQuery (Field : string) (Relation : Z) (Value : string)
  | PkgQuery (Pkg Version Arch : string)
  | DependencyQuery (Dep : Dependency).

(** [Package.GetField], [Package.MatchesDependency] and the standard
    library's [filepath.Match] are outside src/; the queries are
    parametrised by them.  [filepath.Match] returns [None] for a malformed
    pattern (a non-nil [err]). *)
Class PackageOps : Type := {
  GetField : Package → string → string;
  MatchesDependency : Package → Dependency → bool;
  filepath_Match : string → string → option bool
}.

Section Query.

Context `{PackageOps}.

(** Modelled from the spec: [PackageList.Search] is not under src/.  The
    "dependency-satisfying search" returns the packages of the list that
    satisfy the dependency; with [allMatches] false it stops at the first. *)
Definition Search (lst : PackageList) (dep : Dependency) (allMatches : bool)
  : list Package :=
  let found := filter (λ pkg, MatchesDependency pkg dep = true) (packages lst) in
  if allMatches then found else take 1 found.

(** [FieldQuery.Matches], query.go:115-146. *)
Definition FieldMatches (Field : string) (Relation : Z) (Value : string)
    (pkg : Package) : result bool :=
  if decide (Field = "$Version") then
    Ok (MatchesDependency pkg (mkDependency (Name pkg) Relation Value))
  else if decide (Field = "$Architecture" ∧ Relation = VersionEqual) then
    Ok (MatchesArchitecture pkg Value)
  else
    let field := GetField pkg Field in
    if decide (Relation = VersionDontCare) then Ok (negb (bool_decide (field = EmptyString)))
    else if decide (Relation = VersionEqual) then Ok (bool_decide (field = Value))
    else if decide (Relation = VersionGreater) then Ok (String.ltb Value field)
    else if decide (Relation = VersionGreaterOrEqual) then Ok (String.leb Value field)
    else if decide (Relation = VersionLess) then Ok (String.ltb field Value)
    else if decide (Relation = VersionLessOrEqual) then Ok (String.leb field Value)
    else if decide (Relation = VersionPatternMatch) then
      Ok (match filepath_Match Value field with
          | Some matched => matched
          | None => false
          end)
    else if decide (Relation = VersionRegexp) then
      Panic "regexp matching not implemented yet"
    else Panic "unknown relation".

(** [Matches] of the six node kinds. *)
Fixpoint Matches (q : PackageQuery) (pkg : Package) : result bool :=
  match q with
  | OrQuery L R => go_or (Matches L pkg) (Matches R pkg)
  | AndQuery L R => go_and (Matches L pkg) (Matches R pkg)
  | NotQuery Q => go_not (Matches Q pkg)
  | FieldQuery Field Relation Value => FieldMatches Field Relation Value pkg
  | PkgQuery Pkg Version' Arch =>
      Ok (bool_decide (Name pkg = Pkg) && bool_decide (Version pkg = Version')
          && bool_decide (Architecture pkg = Arch))
  | DependencyQuery Dep => Ok (MatchesDependency pkg Dep)
  end.

(** [Fast] of the six node kinds. *)
Fixpoint Fast (q : PackageQuery) : bool :=
  match q with
  | OrQuery L R => Fast L && Fast R
  | AndQuery L R => Fast L || Fast R
  | NotQuery _ => false
  | FieldQuery _ _ _ => false
  | PkgQuery _ _ _ => true
  | DependencyQuery _ => true
  end.

(** [Query] of the six node kinds, on the contents of the lists. *)
Fixpoint Query (q : PackageQuery) (lst : PackageList) : result PackageList :=
  match q with
  | OrQuery L R =>
      if Fast L && Fast R then
        result ← Query L lst;
        other ← Query R lst;
        Ok (Append result other)
      else Scan lst (Matches (OrQuery L R))
  | AndQuery L R =>
      if negb (Fast L || Fast R) then Scan lst (Matches (AndQuery L R))
      else if Fast L then
        result ← Query L lst;
        Scan result (Matches R)
      else
        result ← Query R lst;
        Scan result (Matches L)
  | NotQuery Q => Scan lst (Matches (NotQuery Q))
  | FieldQuery Field Relation Value =>
      Scan lst (Matches (FieldQuery Field Relation Value))
  | DependencyQuery Dep =>
      Ok (foldl (λ result pkg, Add pkg result) NewPackageList
                (Search lst Dep true))
  | PkgQuery Pkg Version' Arch =>
      Ok (match lst !! pkgKey Arch Pkg Version' with
          | Some pkg => Add pkg NewPackageList
          | None => NewPackageList
          end)
  end.

End Query.


(** The reference the fast paths are compared with: "a brute-force scan
    applying [q.Matches] to every package in [L]". *)
Definition brute_force `{PackageOps} (q : PackageQuery) (lst : PackageList)
  : result PackageList :=
  Scan lst (Matches q).

(** Evaluating [q.Matches(pkg)] evaluates [sub.Matches(pkg)]: [sub] is [q]
    itself, or sits under operands that Go's short-circuit evaluation
    reaches. *)
Inductive evaluates `{PackageOps} (pkg : Package) (sub : PackageQuery)
  : PackageQuery → Prop :=
  | evaluates_here : evaluates pkg sub sub
  | evaluates_not Q :
      evaluates pkg sub Q → evaluates pkg sub (NotQuery Q)
  | evaluates_and_l L R :
      evaluates pkg sub L → evaluates pkg sub (AndQuery L R)
  | evaluates_and_r L R :
      Matches L pkg = Ok true → evaluates pkg sub R →
      evaluates pkg sub (AndQuery L R)
  | evaluates_or_l L R :
      evaluates pkg sub L → evaluates pkg sub (OrQuery L R)
  | evaluates_or_r L R :
      Matches L pkg = Ok false → evaluates pkg sub R →
      evaluates pkg sub (OrQuery L R).

(** The invariant of a package list: a package is stored under the composite
    key of its own (architecture, name, version), and that key stands for no
    other triple ("keys are unique per (architecture, name, version)
    triple"). *)
Definition keyed (lst : PackageList) : Prop :=
  ∀ k pkg, lst !! k = Some pkg →
  ∀ arch name version,
    k = pkgKey arch name version ↔
    arch = Architecture pkg ∧ name = Name pkg ∧ version = Version pkg.

(** No [Field] node of the query uses the regexp relation or a relation
    outside the known ones. *)
Fixpoint implemented (q : PackageQuery) : Prop :=
  match q with
  | OrQuery L R | AndQuery L R => implemented L ∧ implemented R
  | NotQuery Q => implemented Q
  | FieldQuery _ Relation _ => 0 ≤ Relation < VersionRegexp
  | PkgQuery _ _ _ | DependencyQuery _ => True
  end.

(** The number of spaces of a string. *)
Fixpoint spaces (s : string) : nat :=
  match s with
  | EmptyString => 0%nat
  | String c s' => ((if decide (c = " "%char) then 1 else 0) + spaces s')%nat
  end.

(** ** The queries on heap-allocated lists *)

(** A [*PackageList] is a pointer and [Add] and [Append] update the list
    they are called on.  To follow which list a query allocates and which it
    updates, the lists live in a heap: a pointer is an index into the heap,
    [NewPackageList()] appends a list to it, and a call that updates a list
    replaces the entry at its index. *)
Abbreviation Heap := (list PackageList).

(** A computation on the heap that returns or panics; the heap is kept in
    both cases. *)
Definition M (A : Type) : Type := Heap → result A * Heap.

Definition retH {A} (a : A) : M A := λ h, (Ok a, h).
Definition bindH {A B} (c : M A) (f : A → M B) : M B := λ h,
  match c h with
  | (Ok a, h') => f a h'
  | (Panic msg, h') => (Panic msg, h')
  end.

#[global] Instance M_ret : MRet M := @retH.
#[global] Instance M_bind : MBind M := λ A B f c, bindH c f.

(** A panic or a value of the pure part of the code. *)
Definition liftH {A} (r : result A) : M A := λ h, (r, h).

(** Reading through a pointer; a pointer to no list is a nil dereference. *)
Definition loadH (l : nat) : M PackageList := λ h,
  match h !! l with
  | Some L => (Ok L, h)
  | None => (Panic "invalid memory address or nil pointer dereference", h)
  end.

Definition NewPackageListH : M nat := λ h,
  (Ok (length h), h ++ [NewPackageList]).

(** [l.Add(pkg)] updates the list [l] points to. *)
Definition AddH (pkg : Package) (l : nat) : M unit := λ h,
  match h !! l with
  | Some L => (Ok tt, <[l := Add pkg L]> h)
  | None => (Panic "invalid memory address or nil pointer dereference", h)
  end.

Fixpoint for_each {A} (xs : list A) (body : A → M unit) : M unit :=
  match xs with
  | [] => mret tt
  | x :: rest => body x ≫= λ _, for_each rest body
  end.

(** [l.Append(pl)] adds the packages of [pl] to the list [l] points to. *)
Definition AppendH (l pl : nat) : M unit :=
  PL ← loadH pl; for_each (packages PL) (λ pkg, AddH pkg l).

(** The body of the loop of [Scan]: [if q.Matches(pkg) { result.Add(pkg) }]. *)
Definition scan_body (matches : Package → result bool) (result : nat)
    (pkg : Package) : M unit :=
  b ← liftH (matches pkg); if b : bool then AddH pkg result else mret tt.

(** [l.Scan(q)] allocates the list it returns. *)
Definition ScanH (l : nat) (matches : Package → result bool) : M nat :=
  L ← loadH l;
  result ← NewPackageListH;
  for_each (packages L) (scan_body matches result);;
  mret result.

(** [Query] of the six node kinds, query.go:62-199, on pointers. *)
Fixpoint QueryH `{PackageOps} (q : PackageQuery) (l : nat) : M nat :=
  match q with
  | OrQuery L R =>
      if Fast L && Fast R then
        result ← QueryH L l;
        other ← QueryH R l;
        AppendH result other;;
        mret result
      else ScanH l (Matches (OrQuery L R))
  | AndQuery L R =>
      if negb (Fast L || Fast R) then ScanH l (Matches (AndQuery L R))
      else if Fast L then
        result ← QueryH L l;
        ScanH result (Matches R)
      else
        result ← QueryH R l;
        ScanH result (Matches L)
  | NotQuery Q => ScanH l (Matches (NotQuery Q))
  | FieldQuery Field Relation Value =>
      ScanH l (Matches (FieldQuery Field Relation Value))
  | DependencyQuery Dep =>
      result ← NewPackageListH;
      L ← loadH l;
      for_each (Search L Dep true) (λ pkg, AddH pkg result);;
      mret result
  | PkgQuery Pkg Version' Arch =>
      result ← NewPackageListH;
      L ← loadH l;
      match L !! pkgKey Arch Pkg Version' with
      | Some pkg => AddH pkg result
      | None => mret tt
      end;;
      mret result
  end.

(** Every list of [h] is still there in [h'], with the same keys and the
    same packages. *)
Definition unchanged (h h' : Heap) : Prop :=
  ∀ i L, h !! i = Some L → h' !! i = Some L.

(** [h'] differs from [h] at most in the list at [r]. *)
Definition only_at (r : nat) (h h' : Heap) : Prop :=
  length h' = length h ∧ ∀ i, i ≠ r → h' !! i = h !! i.

(** The outcome of a call that returns a pointer: no list that existed
    before the call has changed, and a returned pointer is to a list that
    the call allocated. *)
Definition fresh_result (h : Heap) (out : result nat * Heap) : Prop :=
  unchanged h out.2 ∧
  ∀ r, out.1 = Ok r → h !! r = None ∧ is_Some (out.2 !! r).

(** A call on the heap returns a pointer to the list, or panics with the
    message, that the same call on the contents of the lists gives. *)
Definition agrees (p : result PackageList) (out : result nat * Heap) : Prop :=
  match p with
  | Ok R => ∃ r, out.1 = Ok r ∧ out.2 !! r = Some R
  | Panic msg => out.1 = Panic msg
  end.

(** A decidable sufficient condition for [keyed]: every package sits under
    its own key and none of its three components holds a space. *)
Definition well_keyed (lst : PackageList) : Prop :=
  map_Forall (λ k pkg, k = Key pkg ∧ spaces (Architecture pkg) = 0%nat ∧
                       spaces (Name pkg) = 0%nat ∧
                       spaces (Version pkg) = 0%nat) lst.

(** *** Sample data for the queries *)

(** One way to fill in the operations outside src/: control fields are
    looked up in [Control], a dependency is satisfied by the named package
    at any version or at the exact version, and a pattern without
    metacharacters matches itself. *)
Definition sample_ops : PackageOps := {|
  GetField pkg field :=
    default EmptyString ((list_to_map (Control pkg) : gmap string string) !! field);
  MatchesDependency pkg dep :=
    bool_decide (Name pkg = DepPkg dep) &&
    (bool_decide (DepRelation dep = VersionDontCare) ||
     bool_decide (Version pkg = DepVersion dep));
  filepath_Match pattern name := Some (bool_decide (pattern = name))
|}.

Definition zsh : Package :=
  mkPackage "zsh" "5.8" "amd64" [("Section", "shells")].
Definition bash_doc : Package :=
  mkPackage "bash-doc" "5.1" "all" [("Section", "doc")].

Definition sample_list : PackageList := Add bash_doc (Add zsh NewPackageList).

(** ** Publishing: debian/publish.go *)

(** The snapshot a repository is published from: its UUID and the keys of
    the packages it refers to ([snapshot.RefList()]). *)
Record Snapshot : Type := mkSnapshot {
  UUID : string;
  RefList : list string
}.

(** [PublishedRepo].  A Go slice that is [nil] is [None]; an empty slice
    that was supplied is [Some []]. *)
Record PublishedRepo : Type := mkPublishedRepo {
  Prefix : string;
  Distribution : string;
  Component : string;
  Architectures : option (list string);
  SnapshotUUID : string;
  snapshot : Snapshot
}.

Definition NewPublishedRepo (prefix distribution component : string)
    (architectures : option (list string)) (snapshot : Snapshot)
  : PublishedRepo :=
  mkPublishedRepo prefix distribution component architectures
                  (UUID snapshot) snapshot.

(** [utils.ChecksumInfo]. *)
Record ChecksumInfo : Type := mkChecksumInfo {
  Size : Z;
  MD5 : string;
  SHA1 : string;
  SHA256 : string
}.

(** [Stanza] is a Go map from field name to value. *)
Abbreviation Stanza := (gmap string string).

(** Modelled from the spec: [Package.Stanza] is not under src/.  A package
    carries "a mapping of control-field name → value". *)
Definition PackageStanza (pkg : Package) : Stanza := list_to_map (Control pkg).

(** The errors [Publish] returns: the error of a collaborator (file system
    or signer) passed on as it is, the error of a package reference that the
    collection does not resolve, [fmt.Errorf(text)] and
    [fmt.Errorf(format, cause)]. *)
Inductive error : Type :=
  | External (msg : string)
  | Unresolved (ref : string)
  | Errorf (text : string)
  | Wrapped (format : string) (cause : error).

(** The calls [Publish] makes on the repository (the file system), on the
    files it creates and on the signer. *)
Inductive Call : Type :=
  | MkDir (path : string)
  | CreateFile (path : string)
  | LinkFromPool (pkg : Package) (prefix component : string)
  | WriteTo (file : string) (stanza : Stanza)
  | WriteByte (file : string) (c : ascii)
  | Flush (file : string)
  | CompressFile (file : string)
  | Close (file : string)
  | ChecksumsForFile (path : string)
  | DetachedSign (source destination : string)
  | ClearSign (source destination : string).

#[global] Instance error_eq_dec : EqDecision error.
Proof. solve_decision. Defined.

#[global] Instance Snapshot_eq_dec : EqDecision Snapshot.
Proof. solve_decision. Defined.

#[global] Instance PublishedRepo_eq_dec : EqDecision PublishedRepo.
Proof. solve_decision. Defined.

#[global] Instance ChecksumInfo_eq_dec : EqDecision ChecksumInfo.
Proof. solve_decision. Defined.

#[global] Instance Call_eq_dec : EqDecision Call.
Proof. solve_decision. Defined.

(** The state of the repository and of the signer's output is the sequence
    of the calls that succeeded so far, oldest first. *)
Abbreviation Repository := (list Call).

(** What lies outside src/: [filepath.Join] and [filepath.Dir] of the
    standard library; whether a call fails, given the calls made so far, and
    with which message; the checksums the file system computes for a path;
    the name on disk of a file that [CreateFile] returned; and the formatted
    current time. *)
Class Collaborators : Type := {
  filepath_Join : list string → string;
  filepath_Dir : string → string;
  fails : Repository → Call → option string;
  checksums : Repository → string → ChecksumInfo;
  FileName : string → string;
  Now : string
}.

(** A step of [Publish]: it returns a value or a Go error, and leaves the
    calls made so far in both cases (nothing is rolled back). *)
Definition IO (A : Type) : Type := Repository → (error + A) * Repository.

Definition retIO {A} (a : A) : IO A := λ repo, (inr a, repo).
Definition bindIO {A B} (c : IO A) (f : A → IO B) : IO B := λ repo,
  match c repo with
  | (inr a, repo') => f a repo'
  | (inl err, repo') => (inl err, repo')
  end.

#[global] Instance IO_ret : MRet IO := @retIO.
#[global] Instance IO_bind : MBind IO := λ A B f c, bindIO c f.

Definition failIO {A} (err : error) : IO A := λ repo, (inl err, repo).

(** [if err != nil { return fmt.Errorf(format, err) }]. *)
Definition wrap {A} (format : string) (c : IO A) : IO A := λ repo,
  match c repo with
  | (inl err, repo') => (inl (Wrapped format err), repo')
  | (inr a, repo') => (inr a, repo')
  end.

(** [PackageCollection]: the packages by key. *)
Abbreviation PackageCollection := (gmap string Package).

(** Modelled from the spec: [NewPackageListFromRefList] is not under src/.
    "Materialize the full PackageList from the snapshot's reference list via
    the package collection; a referenced package absent from the collection
    is a fatal error." *)
Fixpoint load_refs (refs : list string) (collection : PackageCollection)
    (acc : PackageList) : error + PackageList :=
  match refs with
  | [] => inr acc
  | ref :: rest =>
      match collection !! ref with
      | None => inl (Unresolved ref)
      | Some pkg => load_refs rest collection (Add pkg acc)
      end
  end.

Definition NewPackageListFromRefList (refs : list string)
    (collection : PackageCollection) : error + PackageList :=
  load_refs refs collection NewPackageList.

(** Modelled from the spec: [PackageList.Len] is not under src/. *)
Definition Len (lst : PackageList) : nat := size lst.

(** Modelled from the spec: [PackageList.Architectures] is not under src/.
    "the union of architectures present in the materialized list": each
    architecture of a package of the list, once. *)
Definition list_Architectures (lst : PackageList) : list string :=
  remove_dups (Architecture <$> packages lst).

Definition newline : string := String "010"%char EmptyString.

Fixpoint blanks (n : nat) : string :=
  match n with
  | O => EmptyString
  | S n' => String " "%char (blanks n')
  end.

(** [fmt.Sprintf("%8d", n)]: the decimal digits, right-justified in eight
    columns. *)
Definition Sprintf_8d (n : Z) : string :=
  let digits := NilZero.string_of_int (Z.to_int n) in
  blanks (8 - String.length digits) +:+ digits.

(** [fmt.Sprintf(" %s %8d %s\n", digest, size, path)], publish.go:155. *)
Definition checksum_line (digest : string) (size : Z) (path : string) : string :=
  " " +:+ digest +:+ " " +:+ Sprintf_8d size +:+ " " +:+ path +:+ newline.

(** [release[field] += text] on a Go map. *)
Definition append_field (field text : string) (release : Stanza) : Stanza :=
  <[field := default EmptyString (release !! field) +:+ text]> release.

(** The three lines one generated file adds, publish.go:155-157. *)
Definition add_checksums (release : Stanza) (entry : string * ChecksumInfo)
  : Stanza :=
  append_field "SHA256" (checksum_line (SHA256 entry.2) (Size entry.2) entry.1)
    (append_field "SHA1" (checksum_line (SHA1 entry.2) (Size entry.2) entry.1)
       (append_field "MD5Sum"
          (checksum_line (MD5 entry.2) (Size entry.2) entry.1) release)).

(** [p.Architectures = architectures]. *)
Definition set_Architectures (p : PublishedRepo) (architectures : list string)
  : PublishedRepo :=
  mkPublishedRepo (Prefix p) (Distribution p) (Component p)
                  (Some architectures) (SnapshotUUID p) (snapshot p).

Section Publish.

Context `{Collaborators}.

(** A call on a collaborator: it fails with the collaborator's error, or it
    succeeds and is recorded. *)
Definition call (c : Call) : IO unit := λ repo,
  match fails repo c with
  | Some msg => (inl (External msg), repo)
  | None => (inr tt, repo ++ [c])
  end.

(** [repo.ChecksumsForFile(path)]. *)
Definition checksumsForFile (path : string) : IO ChecksumInfo := λ repo,
  match fails repo (ChecksumsForFile path) with
  | Some msg => (inl (External msg), repo)
  | None => (inr (checksums repo path), repo ++ [ChecksumsForFile path])
  end.

(** A call whose error is not looked at ([packagesFile.Close()]). *)
Definition call_ignoring_error (c : Call) : IO unit := λ repo,
  (inr tt, repo ++ [c]).

(** Modelled from the spec: [PackageList.ForEach] is not under src/.  "full
    iteration": the handler runs on each package in turn and its first error
    ends the iteration. *)
Fixpoint ForEach_from (pkgs : list Package) (handler : Package → IO unit)
  : IO unit :=
  match pkgs with
  | [] => mret tt
  | pkg :: rest => handler pkg ≫= λ _, ForEach_from rest handler
  end.

Definition ForEach (lst : PackageList) (handler : Package → IO unit) : IO unit :=
  ForEach_from (packages lst) handler.

Definition basePath (p : PublishedRepo) : string :=
  filepath_Join [Prefix p; "dists"; Distribution p].

Definition relativePath (p : PublishedRepo) (arch : string) : string :=
  filepath_Join [Component p; "binary-" +:+ arch; "Packages"].

(** The handler passed to [ForEach], publish.go:85-104; [file] is the
    Packages file the buffered writer writes to. *)
Definition write_package (p : PublishedRepo) (file arch : string)
    (pkg : Package) : IO unit :=
  if MatchesArchitecture pkg arch then
    call (LinkFromPool pkg (Prefix p) (Component p));;
    call (WriteTo file (PackageStanza pkg));;
    call (WriteByte file "010"%char)
  else mret tt.

(** The body of the loop over the architectures, publish.go:72-138. *)
Definition publish_architecture (p : PublishedRepo) (lst : PackageList)
    (generatedFiles : gmap string ChecksumInfo) (arch : string)
  : IO (gmap string ChecksumInfo) :=
  let file := filepath_Join [basePath p; relativePath p arch] in
  call (MkDir (filepath_Dir file));;
  wrap "unable to creates Packages file: %s" (call (CreateFile file));;
  wrap "unable to creates process packages: %s"
       (ForEach lst (write_package p file arch));;
  wrap "unable to write Packages file: %s" (call (Flush file));;
  wrap "unable to compress Packages files: %s" (call (CompressFile file));;
  call_ignoring_error (Close file);;
  checksumInfo ← wrap "unable to collect checksums: %s" (checksumsForFile file);
  let generatedFiles := <[relativePath p arch := checksumInfo]> generatedFiles in
  checksumInfo ← wrap "unable to collect checksums: %s"
    (checksumsForFile (filepath_Join [basePath p; relativePath p arch +:+ ".gz"]));
  let generatedFiles :=
    <[relativePath p arch +:+ ".gz" := checksumInfo]> generatedFiles in
  checksumInfo ← wrap "unable to collect checksums: %s"
    (checksumsForFile (filepath_Join [basePath p; relativePath p arch +:+ ".bz2"]));
  let generatedFiles :=
    <[relativePath p arch +:+ ".bz2" := checksumInfo]> generatedFiles in
  mret generatedFiles.

(** [for _, arch := range p.Architectures { ... }], publish.go:71-140. *)
Fixpoint publish_architectures (p : PublishedRepo) (lst : PackageList)
    (archs : list string) (generatedFiles : gmap string ChecksumInfo)
  : IO (gmap string ChecksumInfo) :=
  match archs with
  | [] => mret generatedFiles
  | arch :: rest =>
      generatedFiles ← publish_architecture p lst generatedFiles arch;
      publish_architectures p lst rest generatedFiles
  end.

(** The release stanza before the checksum lines, publish.go:142-152. *)
Definition release_header (p : PublishedRepo) (archs : list string) : Stanza :=
  <["SHA256" := newline]>
  (<["SHA1" := newline]>
  (<["MD5Sum" := newline]>
  (<["Description" := "Generated by aptly" +:+ newline]>
  (<["Architectures" := String.concat " " archs]>
  (<["Components" := Component p]>
  (<["Date" := Now]>
  (<["Codename" := Distribution p]>
  (<["Label" := Prefix p +:+ " " +:+ Distribution p]>
  (<["Origin" := Prefix p +:+ " " +:+ Distribution p]> ∅))))))))).

(** The release stanza, publish.go:142-158.  The [range] over the Go map
    [generatedFiles] visits its entries in the order of [map_to_list]. *)
Definition release_stanza (p : PublishedRepo) (archs : list string)
    (generatedFiles : gmap string ChecksumInfo) : Stanza :=
  foldl add_checksums (release_header p archs) (map_to_list generatedFiles).

(** Writing and signing the Release file, publish.go:160-188. *)
Definition write_release (p : PublishedRepo) (release : Stanza) : IO unit :=
  let path := filepath_Join [basePath p; "Release"] in
  wrap "unable to create Release file: %s" (call (CreateFile path));;
  wrap "unable to create Release file: %s" (call (WriteTo path release));;
  wrap "unable to create Release file: %s" (call (Flush path));;
  let releaseFilename := FileName path in
  call_ignoring_error (Close path);;
  wrap "unable to sign Release file: %s"
       (call (DetachedSign releaseFilename (releaseFilename +:+ ".gpg")));;
  wrap "unable to sign Release file: %s"
       (call (ClearSign releaseFilename
                (filepath_Join [filepath_Dir releaseFilename; "InRelease"]))).

(** The two directories and the package list, publish.go:40-54. *)
Definition load_packages (p : PublishedRepo) (packageCollection : PackageCollection)
  : IO PackageList :=
  call (MkDir (filepath_Join [Prefix p; "pool"]));;
  call (MkDir (basePath p));;
  wrap "unable to load packages: %s"
       (λ repo, (NewPackageListFromRefList (RefList (snapshot p))
                   packageCollection, repo)).

(** The architectures [Publish] works with, publish.go:60-62. *)
Definition infer_Architectures (p : PublishedRepo) (lst : PackageList)
  : PublishedRepo :=
  match Architectures p with
  | None => set_Architectures p (list_Architectures lst)
  | Some _ => p
  end.

(** [PublishedRepo.Publish], publish.go:39-191.  It returns the error
    ([None] is [nil]), the published repository, whose architectures it may
    have set, and the calls made. *)
Definition Publish (p : PublishedRepo) (packageCollection : PackageCollection)
    (repo : Repository) : option error * PublishedRepo * Repository :=
  match load_packages p packageCollection repo with
  | (inl err, repo1) => (Some err, p, repo1)
  | (inr lst, repo1) =>
      if decide (Len lst = 0%nat) then
        (Some (Errorf "repository is empty, can't publish"), p, repo1)
      else
        let p' := infer_Architectures p lst in
        let archs := default [] (Architectures p') in
        if decide (length archs = 0%nat) then
          (Some (Errorf "unable to figure out list of architectures, please supply explicit list"),
           p', repo1)
        else
          match (generatedFiles ← publish_architectures p' lst archs ∅;
                 write_release p' (release_stanza p' archs generatedFiles))
                  repo1 with
          | (inl err, repo2) => (Some err, p', repo2)
          | (inr _, repo2) => (None, p', repo2)
          end
  end.

End Publish.

(** The relative paths [Publish] records in [generatedFiles]. *)
Definition generated_paths `{Collaborators} (p : PublishedRepo)
    (archs : list string) : list string :=
  arch ← archs;
  [relativePath p arch; relativePath p arch +:+ ".gz";
   relativePath p arch +:+ ".bz2"].

Arguments generated_paths : simpl never.

(** The lines of one checksum block of the Release file: one for each
    generated file. *)
Definition block_lines (digest : ChecksumInfo → string)
    (generatedFiles : gmap string ChecksumInfo) : list string :=
  (λ entry, checksum_line (digest entry.2) (Size entry.2) entry.1)
    <$> map_to_list generatedFiles.

(** The text of a checksum block: a line break, then the lines. *)
Definition block_text (lines : list string) : string :=
  foldl String.append newline lines.

(** *** Sample data for publishing *)

Fixpoint dirname (path : string) : option string :=
  match path with
  | EmptyString => None
  | String c rest =>
      match dirname rest with
      | Some dir => Some (String c dir)
      | None => if decide (c = "/"%char) then Some EmptyString else None
      end
  end.

(** Collaborators that never fail: paths are joined with a slash, and the
    checksums of a path are made up from the path. *)
Definition sample_collaborators : Collaborators := {|
  filepath_Join parts := String.concat "/" parts;
  filepath_Dir path := default "." (dirname path);
  fails _ _ := None;
  checksums _ path :=
    mkChecksumInfo (Z.of_nat (String.length path)) ("md5-" +:+ path)
                   ("sha1-" +:+ path) ("sha256-" +:+ path);
  FileName path := "/srv/aptly/public/" +:+ path;
  Now := "Sat, 31 Oct 2026 12:00:00 UTC"
|}.

Definition sample_collection : PackageCollection := sample_list.

Definition sample_snapshot : Snapshot :=
  mkSnapshot "c0ffee" [Key zsh; Key bash_doc].

Definition empty_snapshot : Snapshot := mkSnapshot "decaf" [].

(** The errors of the steps before the loop over the architectures: the
    empty-repository error, the error of loading the packages (an unresolved
    reference) and the missing-architectures error. *)
Definition early_error (err : error) : Prop :=
  err = Errorf "repository is empty, can't publish" ∨
  (∃ cause, err = Wrapped "unable to load packages: %s" cause) ∨
  err = Errorf "unable to figure out list of architectures, please supply explicit list".

(** The errors of the loop over the architectures and of writing and
    signing the Release file: an error of the file system passed on as it
    is, or one wrapped at publish.go:80-186. *)
Definition late_error (err : error) : bool :=
  match err with
  | External _ => true
  | Wrapped format _ =>
      bool_decide (format ∈ ["unable to creates Packages file: %s";
                             "unable to creates process packages: %s";
                             "unable to write Packages file: %s";
                             "unable to compress Packages files: %s";
                             "unable to collect checksums: %s";
                             "unable to create Release file: %s";
                             "unable to sign Release file: %s"])
  | _ => false
  end.

(** Every error the step returns satisfies [P]. *)
Definition raises {A} (c : IO A) (P : error → Prop) : Prop :=
  ∀ repo err repo', c repo = (inl err, repo') → P err.

(** The step only adds calls at the end of those made so far. *)
Definition extends {A} (c : IO A) : Prop :=
  ∀ repo, ∃ calls, (c repo).2 = repo ++ calls.

(** The two directories [Publish] creates first, publish.go:40-45. *)
Definition first_directories `{Collaborators} (p : PublishedRepo) : list Call :=
  [MkDir (filepath_Join [Prefix p; "pool"]); MkDir (basePath p)].

(** Both directory creations succeed when [Publish] starts from [repo]. *)
Definition directories_created `{Collaborators} (p : PublishedRepo)
    (repo : Repository) : Prop :=
  fails repo (MkDir (filepath_Join [Prefix p; "pool"])) = None ∧
  fails (repo ++ [MkDir (filepath_Join [Prefix p; "pool"])])
        (MkDir (basePath p)) = None.

(** *** The calls of a successful [Publish] *)

Section PublishCalls.

Context `{Collaborators}.

(** The calls the handler of publish.go:85-104 makes for one package. *)
Definition package_calls (p : PublishedRepo) (file arch : string)
    (pkg : Package) : list Call :=
  if MatchesArchitecture pkg arch then
    [LinkFromPool pkg (Prefix p) (Component p);
     WriteTo file (PackageStanza pkg);
     WriteByte file "010"%char]
  else [].

(** The calls of one round of the loop over the architectures. *)
Definition architecture_calls (p : PublishedRepo) (lst : PackageList)
    (arch : string) : list Call :=
  let file := filepath_Join [basePath p; relativePath p arch] in
  [MkDir (filepath_Dir file); CreateFile file]
  ++ (pkg ← packages lst; package_calls p file arch pkg)
  ++ [Flush file; CompressFile file; Close file;
      ChecksumsForFile file;
      ChecksumsForFile (filepath_Join [basePath p; relativePath p arch +:+ ".gz"]);
      ChecksumsForFile (filepath_Join [basePath p; relativePath p arch +:+ ".bz2"])].

(** The calls that write and sign the Release file. *)
Definition release_calls (p : PublishedRepo) (release : Stanza) : list Call :=
  let path := filepath_Join [basePath p; "Release"] in
  [CreateFile path; WriteTo path release; Flush path; Close path;
   DetachedSign (FileName path) (FileName path +:+ ".gpg");
   ClearSign (FileName path)
             (filepath_Join [filepath_Dir (FileName path); "InRelease"])].

End PublishCalls.

Arguments architecture_calls : simpl never.
Arguments release_calls : simpl never.

(** The error of a step that [Publish] passes on as it is comes from a
    [MkDir] call that failed with that message. *)
Definition from_MkDir `{Collaborators} (err : error) : Prop :=
  ∀ msg, err = External msg →
         ∃ history path, fails history (MkDir path) = Some msg.

(** Whatever its outcome, the step makes an initial segment of [calls],
    and all of them when it succeeds. *)
Definition stops_within {A} (c : IO A) (calls : list Call) : Prop :=
  ∀ repo res repo', c repo = (res, repo') →
  ∃ made, repo' = repo ++ made ∧ made `prefix_of` calls ∧
          (∀ a, res = inr a → made = calls).

(** The error is not the one of a failed signature. *)
Definition not_sign_error (err : error) : Prop :=
  ∀ cause, err ≠ Wrapped "unable to sign Release file: %s" cause.

(** *** More sample data *)

(** As [sample_ops], but the pattern of a lone opening bracket is
    malformed. *)
Definition strict_ops : PackageOps := {|
  GetField pkg field :=
    default EmptyString
      ((list_to_map (Control pkg) : gmap string string) !! field);
  MatchesDependency pkg dep :=
    bool_decide (Name pkg = DepPkg dep) &&
    (bool_decide (DepRelation dep = VersionDontCare) ||
     bool_decide (Version pkg = DepVersion dep));
  filepath_Match pattern name :=
    if decide (pattern = "[") then None
    else Some (bool_decide (pattern = name))
|}.

(** As [sample_collaborators], but the calls for which [failing] gives a
    message fail with it. *)
Definition failing_collaborators (failing : Call → option string)
  : Collaborators := {|
  filepath_Join parts := String.concat "/" parts;
  filepath_Dir path := default "." (dirname path);
  fails _ c := failing c;
  checksums _ path :=
    mkChecksumInfo (Z.of_nat (String.length path)) ("md5-" +:+ path)
                   ("sha1-" +:+ path) ("sha256-" +:+ path);
  FileName path := "/srv/aptly/public/" +:+ path;
  Now := "Sat, 31 Oct 2026 12:00:00 UTC"
|}.

(** The directory of the i386 Packages file cannot be created. *)
Definition readonly_i386 (c : Call) : option string :=
  if decide (c = MkDir "debian/dists/stable/main/binary-i386")
  then Some "permission denied" else None.

(** The signer cannot make the clear-signed file. *)
Definition no_clearsign (c : Call) : option string :=
  match c with
  | ClearSign _ _ => Some "gpg: signing failed"
  | _ => None
  end.

Definition sample_repo : PublishedRepo :=
  NewPublishedRepo "debian" "stable" "main" (Some ["amd64"; "i386"])
                   sample_snapshot.

(* ################################################################# *)
(** * Properties *)

(** Closed decidable statements are settled by evaluating their decision
    procedure. *)
Ltac by_evaluation :=
  cbv zeta; apply (bool_decide_unpack _); vm_compute; exact I.

(** ** Package lists *)

Lemma is_Ok_Ok {A} (a : A) : is_Ok (Ok a).
Proof. by exists a. Qed.

Lemma not_is_Ok_Panic {A} (msg : string) : ¬ is_Ok (@Panic A msg).
Proof. by intros [a ?]. Qed.

Lemma Add_union (pkg : Package) (lst : PackageList) :
  Add pkg lst = lst ∪ {[Key pkg := pkg]}.
Proof.
  unfold Add. apply map_eq. intros k.
  destruct (lst !! Key pkg) as [old|] eqn:Hold; rewrite lookup_union.
  - destruct (decide (k = Key pkg)) as [->|Hne].
    + by rewrite Hold, lookup_singleton_eq.
    + rewrite lookup_singleton_ne by done. by destruct (lst !! k).
  - destruct (decide (k = Key pkg)) as [->|Hne].
    + by rewrite lookup_insert_eq, Hold, lookup_singleton_eq.
    + rewrite lookup_insert_ne, lookup_singleton_ne by done.
      by destruct (lst !! k).
Qed.

(** Adding packages one after the other is a left-biased union with the
    map of the added packages. *)
Lemma foldl_Add (pkgs : list Package) (acc : PackageList) :
  foldl (λ acc pkg, Add pkg acc) acc pkgs
  = acc ∪ list_to_map ((λ pkg, (Key pkg, pkg)) <$> pkgs).
Proof.
  revert acc. induction pkgs as [|pkg pkgs IH]; intros acc; simpl.
  - by rewrite (right_id ∅ (∪)).
  - rewrite IH, Add_union, <- (assoc_L (∪)).
    by rewrite <- insert_union_singleton_l.
Qed.

(** Every package of the list is stored under its own key. *)
Definition own_keys (lst : PackageList) : Prop :=
  ∀ k pkg, lst !! k = Some pkg → k = Key pkg.

Lemma keyed_pairs (P : Package → Prop) `{∀ pkg, Decision (P pkg)}
    (kps : list (string * Package)) :
  Forall (λ kp, kp.1 = Key kp.2) kps →
  (λ pkg, (Key pkg, pkg)) <$> filter P (kps.*2) = filter (λ kp, P kp.2) kps.
Proof.
  induction 1 as [|[k pkg] kps Hk _ IH]; [done|].
  simpl in Hk. subst k. rewrite fmap_cons, !filter_cons. simpl.
  destruct (decide (P pkg)); [rewrite fmap_cons|]; by rewrite IH.
Qed.

Lemma own_keys_Forall (lst : PackageList) :
  own_keys lst → Forall (λ kp, kp.1 = Key kp.2) (map_to_list lst).
Proof.
  intros Hown. apply Forall_forall. intros [k pkg] Hin.
  apply elem_of_map_to_list in Hin. by apply Hown.
Qed.

Lemma own_keys_subseteq (l1 l2 : PackageList) :
  l1 ⊆ l2 → own_keys l2 → own_keys l1.
Proof.
  intros Hsub Hown k pkg Hk. apply Hown.
  by eapply lookup_weaken.
Qed.

(** Building a list from the packages of [lst] that satisfy [P] gives the
    filtered map. *)
Lemma Add_filtered (P : Package → Prop) `{∀ pkg, Decision (P pkg)}
    (lst : PackageList) :
  own_keys lst →
  foldl (λ acc pkg, Add pkg acc) NewPackageList (filter P (packages lst))
  = filter (λ kp, P kp.2) lst.
Proof.
  intros Hown. rewrite foldl_Add. unfold NewPackageList, packages.
  rewrite (left_id ∅ (∪)), keyed_pairs by by apply own_keys_Forall.
  by rewrite <- map_filter_alt.
Qed.

Lemma scan_from_Ok (matches : Package → result bool) (pkgs : list Package)
    (acc R : PackageList) :
  scan_from matches pkgs acc = Ok R ↔
  Forall (λ pkg, is_Ok (matches pkg)) pkgs ∧
  R = foldl (λ acc pkg, Add pkg acc) acc
        (filter (λ pkg, matches pkg = Ok true) pkgs).
Proof.
  revert acc. induction pkgs as [|pkg pkgs IH]; intros acc; simpl.
  - split; [intros [= <-]; by split|intros [_ ->]; done].
  - rewrite filter_cons. destruct (matches pkg) as [[]|msg] eqn:Hm.
    + rewrite decide_True by done. simpl. rewrite IH.
      split; intros [Hall ->]; (split; [|done]).
      * constructor; [rewrite Hm; apply is_Ok_Ok|done].
      * by inversion Hall.
    + rewrite decide_False by done. simpl. rewrite IH.
      split; intros [Hall ->]; (split; [|done]).
      * constructor; [rewrite Hm; apply is_Ok_Ok|done].
      * by inversion Hall.
    + simpl. split; [done|]. intros [Hall _].
      inversion Hall as [|? ? Hp _]; subst.
      rewrite Hm in Hp. by apply not_is_Ok_Panic in Hp.
Qed.

Lemma scan_from_Panic (matches : Package → result bool) (pkgs : list Package)
    (acc : PackageList) (msg : string) :
  scan_from matches pkgs acc = Panic msg →
  ∃ pkg, pkg ∈ pkgs ∧ matches pkg = Panic msg.
Proof.
  revert acc. induction pkgs as [|pkg pkgs IH]; intros acc; simpl; [done|].
  destruct (matches pkg) as [b|msg'] eqn:Hm; simpl.
  - intros Hscan. destruct (IH _ Hscan) as (pkg' & Hin & Hp).
    exists pkg'. split; [by right|done].
  - intros [= ->]. exists pkg. split; [by left|done].
Qed.

Lemma elem_of_packages (lst : PackageList) (pkg : Package) :
  pkg ∈ packages lst ↔ ∃ k, lst !! k = Some pkg.
Proof.
  unfold packages. rewrite list_elem_of_fmap. split.
  - intros ([k p] & -> & Hin). exists k. by apply elem_of_map_to_list.
  - intros [k Hk]. exists (k, pkg). split; [done|].
    by apply elem_of_map_to_list.
Qed.

(** What a scan returns: it returns exactly when the predicate returns on
    every package, and then it returns the filtered list. *)
Lemma Scan_Ok (lst : PackageList) (matches : Package → result bool)
    (R : PackageList) :
  own_keys lst →
  Scan lst matches = Ok R ↔
  (∀ k pkg, lst !! k = Some pkg → is_Ok (matches pkg)) ∧
  R = filter (λ kp, matches kp.2 = Ok true) lst.
Proof.
  intros Hown. unfold Scan. rewrite scan_from_Ok.
  rewrite (Add_filtered (λ pkg, matches pkg = Ok true)) by done.
  rewrite Forall_forall. split; intros [Hall ->]; (split; [|done]).
  - intros k pkg Hk. apply Hall, elem_of_packages. by exists k.
  - intros pkg [k Hk]%elem_of_packages. by eapply Hall.
Qed.

(** A scan panics exactly when the predicate panics on some package. *)
Lemma Scan_Panic (lst : PackageList) (matches : Package → result bool) :
  own_keys lst →
  (∃ msg, Scan lst matches = Panic msg) ↔
  (∃ k pkg msg, lst !! k = Some pkg ∧ matches pkg = Panic msg).
Proof.
  intros Hown. split.
  - intros [msg Hscan]. apply scan_from_Panic in Hscan as (pkg & Hin & Hp).
    apply elem_of_packages in Hin as [k Hk]. by exists k, pkg, msg.
  - intros (k & pkg & msg & Hk & Hp).
    destruct (Scan lst matches) as [R|msg'] eqn:Hscan; [|by exists msg'].
    apply Scan_Ok in Hscan as [Hall _]; [|done].
    apply Hall in Hk. rewrite Hp in Hk. by apply not_is_Ok_Panic in Hk.
Qed.

(** ** Composite keys *)

Lemma append_nil_l (s : string) : EmptyString +:+ s = s.
Proof. reflexivity. Qed.

Lemma append_cons (c : ascii) (s t : string) :
  String c s +:+ t = String c (s +:+ t).
Proof. reflexivity. Qed.

Lemma spaces_app (s1 s2 : string) :
  spaces (s1 +:+ s2) = (spaces s1 + spaces s2)%nat.
Proof.
  induction s1 as [|c s1 IH]; [done|].
  rewrite append_cons. simpl. rewrite IH. lia.
Qed.

Lemma split_at_space (a a' r r' : string) :
  spaces a = 0%nat → spaces a' = 0%nat →
  a +:+ " " +:+ r = a' +:+ " " +:+ r' → a = a' ∧ r = r'.
Proof.
  revert a'. induction a as [|c a IH]; intros [|c' a'];
    repeat (rewrite append_nil_l || rewrite append_cons); simpl.
  - by intros _ _ [= ->].
  - intros _ Hc' [= <- _]. by rewrite decide_True in Hc'.
  - intros Hc _ [= -> _]. by rewrite decide_True in Hc.
  - intros Hc Hc' [= <- Heq].
    destruct (IH a') as [-> ->]; [lia..|done|done].
Qed.

(** The composite key of space-free components is the key of no other
    triple. *)
Lemma pkgKey_inj (a n v a' n' v' : string) :
  spaces a' = 0%nat → spaces n' = 0%nat → spaces v' = 0%nat →
  pkgKey a n v = pkgKey a' n' v' → a = a' ∧ n = n' ∧ v = v'.
Proof.
  intros Ha' Hn' Hv' Heq.
  pose proof (f_equal spaces Heq) as Hcount. unfold pkgKey in Hcount.
  rewrite !spaces_app in Hcount. simpl in Hcount.
  unfold pkgKey in Heq. rewrite !(append_cons "P"), !append_nil_l in Heq.
  injection Heq as Heq.
  apply split_at_space in Heq as [-> Heq]; [|lia|done].
  apply split_at_space in Heq as [-> ->]; [done|lia|done].
Qed.

Lemma well_keyed_keyed (lst : PackageList) : well_keyed lst → keyed lst.
Proof.
  intros Hwk k pkg Hk arch name version.
  destruct (Hwk k pkg Hk) as (-> & Ha & Hn & Hv). split.
  - intros Heq. symmetry in Heq. unfold Key in Heq.
    by apply pkgKey_inj in Heq.
  - by intros (-> & -> & ->).
Qed.

(** Without that condition two triples can share a key: [Query] of a [Pkg]
    node then finds a package that [Matches] rejects. *)
Example pkgKey_collision :
  pkgKey "a b" "c" "d" = pkgKey "a" "b c" "d".
Proof. reflexivity. Qed.

Lemma sample_list_keyed : keyed sample_list.
Proof.
  apply well_keyed_keyed. unfold well_keyed.
  by_evaluation.
Qed.

(** ** Queries *)

Section QueryFacts.

Context {ops : PackageOps}.

(** C2: the truth table of [Fast].  [Or] is fast when both sides are, [And]
    when one side is, [Not] and [Field] never, [Dependency] and [Pkg]
    always. *)
Theorem Fast_truth_table :
  (∀ A B, Fast (OrQuery A B) = Fast A && Fast B) ∧
  (∀ A B, Fast (AndQuery A B) = Fast A || Fast B) ∧
  (∀ Q, Fast (NotQuery Q) = false) ∧
  (∀ field rel value, Fast (FieldQuery field rel value) = false) ∧
  (∀ dep, Fast (DependencyQuery dep) = true) ∧
  (∀ name version arch, Fast (PkgQuery name version arch) = true).
Proof. repeat split. Qed.

(** C3: [And], [Or] and [Not] evaluate [Matches] of their operands with
    Go's [&&], [||] and [!]. *)
Theorem Matches_connectives (A B : PackageQuery) (pkg : Package) :
  Matches (AndQuery A B) pkg = go_and (Matches A pkg) (Matches B pkg) ∧
  Matches (OrQuery A B) pkg = go_or (Matches A pkg) (Matches B pkg) ∧
  Matches (NotQuery A) pkg = go_not (Matches A pkg).
Proof. repeat split. Qed.

(** When both operands return, the connectives are the boolean ones. *)
Lemma Matches_connectives_bool (A B : PackageQuery) (pkg : Package) (a b : bool) :
  Matches A pkg = Ok a → Matches B pkg = Ok b →
  Matches (AndQuery A B) pkg = Ok (a && b) ∧
  Matches (OrQuery A B) pkg = Ok (a || b) ∧
  Matches (NotQuery A) pkg = Ok (negb a).
Proof.
  intros Ha Hb. simpl. unfold go_and, go_or, go_not. rewrite Ha, Hb. simpl.
  by destruct a.
Qed.

Lemma go_and_Ok (x y : result bool) (b : bool) :
  go_and x y = Ok b ↔
  (x = Ok false ∧ b = false) ∨ (x = Ok true ∧ y = Ok b).
Proof.
  unfold go_and. destruct x as [[]|msg]; simpl.
  - split; [by right|]. by intros [[[=] _]|[_ ?]].
  - split; [intros [= <-]; by left|]. by intros [[_ ->]|[[=] _]].
  - split; [done|]. by intros [[? _]|[? _]].
Qed.

Lemma go_or_Ok (x y : result bool) (b : bool) :
  go_or x y = Ok b ↔
  (x = Ok true ∧ b = true) ∨ (x = Ok false ∧ y = Ok b).
Proof.
  unfold go_or. destruct x as [[]|msg]; simpl.
  - split; [intros [= <-]; by left|]. by intros [[_ ->]|[[=] _]].
  - split; [by right|]. by intros [[[=] _]|[_ ?]].
  - split; [done|]. by intros [[? _]|[? _]].
Qed.

Lemma go_not_Ok (x : result bool) (b : bool) :
  go_not x = Ok b ↔ ∃ a, x = Ok a ∧ b = negb a.
Proof.
  unfold go_not. destruct x as [a|msg]; simpl.
  - split; [intros [= <-]; by exists a|]. by intros (a' & [= <-] & ->).
  - split; [done|]. by intros (a & ? & _).
Qed.

(** A panic of an operand that is evaluated is the panic of the whole
    predicate. *)
Lemma evaluates_Panic (pkg : Package) (sub q : PackageQuery) (msg : string) :
  evaluates pkg sub q → Matches sub pkg = Panic msg →
  Matches q pkg = Panic msg.
Proof.
  intros Hev Hsub.
  induction Hev as [|Q _ IH|L R _ IH|L R HL _ IH|L R _ IH|L R HL _ IH];
    simpl; [done|..].
  - by rewrite IH.
  - by rewrite IH.
  - by rewrite HL, IH.
  - by rewrite IH.
  - by rewrite HL, IH.
Qed.

Lemma keyed_own_keys (lst : PackageList) : keyed lst → own_keys lst.
Proof. intros Hk k pkg Hl. by apply (Hk k pkg Hl). Qed.

Lemma keyed_subseteq (l1 l2 : PackageList) : l1 ⊆ l2 → keyed l2 → keyed l1.
Proof.
  intros Hsub Hk k pkg Hl. apply Hk. by eapply lookup_weaken.
Qed.

Lemma own_keys_pairs (lst : PackageList) :
  own_keys lst → (λ pkg, (Key pkg, pkg)) <$> packages lst = map_to_list lst.
Proof.
  intros Hown%own_keys_Forall. unfold packages.
  induction Hown as [|[k pkg] kps Hk _ IH]; [done|].
  simpl in Hk. subst k. rewrite !fmap_cons. simpl. by rewrite IH.
Qed.

Lemma Append_union (lst pl : PackageList) :
  own_keys pl → Append lst pl = lst ∪ pl.
Proof.
  intros Hown. unfold Append.
  by rewrite foldl_Add, own_keys_pairs, list_to_map_to_list.
Qed.

Lemma FieldMatches_implemented (field : string) (rel : Z) (value : string)
    (pkg : Package) :
  0 ≤ rel < VersionRegexp → is_Ok (FieldMatches field rel value pkg).
Proof.
  intros Hrel. unfold FieldMatches.
  unfold VersionDontCare, VersionEqual, VersionGreater, VersionGreaterOrEqual,
    VersionLess, VersionLessOrEqual, VersionPatternMatch, VersionRegexp in *.
  repeat case_decide; try apply is_Ok_Ok; lia.
Qed.

Lemma Matches_implemented (q : PackageQuery) (pkg : Package) :
  implemented q → is_Ok (Matches q pkg).
Proof.
  induction q as [L IHL R IHR|L IHL R IHR|Q IHQ|field rel value|n v a|dep];
    simpl.
  - intros [[[] ->]%IHL [b ->]%IHR]; apply is_Ok_Ok.
  - intros [[[] ->]%IHL [b ->]%IHR]; apply is_Ok_Ok.
  - intros [b ->]%IHQ. apply is_Ok_Ok.
  - apply FieldMatches_implemented.
  - intros _. apply is_Ok_Ok.
  - intros _. apply is_Ok_Ok.
Qed.

(** What a scan of [lst] with the predicate of [q] contains. *)
Lemma Scan_sound (q : PackageQuery) (lst R : PackageList) :
  own_keys lst → Scan lst (Matches q) = Ok R →
  R ⊆ lst ∧
  ∀ k pkg, R !! k = Some pkg ↔ lst !! k = Some pkg ∧ Matches q pkg = Ok true.
Proof.
  intros Hown [_ ->]%Scan_Ok; [|done]. split.
  - apply map_filter_subseteq.
  - intros k pkg. by rewrite map_lookup_filter_Some.
Qed.

(** The packages a query returns are packages of the list, and among the
    packages on which [Matches] returns they are those where it returns
    true. *)
Lemma Query_sound (q : PackageQuery) (lst R : PackageList) :
  keyed lst → Query q lst = Ok R →
  R ⊆ lst ∧
  ∀ k pkg b, lst !! k = Some pkg → Matches q pkg = Ok b →
             (R !! k = Some pkg ↔ b = true).
Proof.
  revert lst R.
  induction q as [L IHL R' IHR|L IHL R' IHR|Q IHQ|field rel value|n v a|dep];
    intros lst R Hkeyed Hq; pose proof (keyed_own_keys _ Hkeyed) as Hown.
  - (* Or *)
    simpl in Hq. destruct (Fast L && Fast R') eqn:Hfast.
    + destruct (Query L lst) as [R1|] eqn:H1; [simpl in Hq|done].
      destruct (Query R' lst) as [R2|] eqn:H2; [simpl in Hq|done].
      injection Hq as <-.
      destruct (IHL _ _ Hkeyed H1) as [Hsub1 Hin1].
      destruct (IHR _ _ Hkeyed H2) as [Hsub2 Hin2].
      rewrite Append_union by by eapply own_keys_subseteq.
      split; [by apply map_union_least|].
      intros k pkg b Hk Hm. simpl in Hm. apply go_or_Ok in Hm.
      rewrite lookup_union_Some_raw.
      destruct Hm as [[HL ->]|[HL HR]].
      * split; [done|]. intros _. left. by apply (Hin1 k pkg true).
      * rewrite (Hin1 k pkg false Hk HL), (Hin2 k pkg b Hk HR).
        split; [by intros [?|[_ ?]]|]. intros ->. right. split; [|done].
        destruct (R1 !! k) as [pkg'|] eqn:Hk1; [|done].
        pose proof (lookup_weaken _ _ _ _ Hk1 Hsub1) as Hk'.
        rewrite Hk in Hk'. injection Hk' as <-.
        by apply (Hin1 k pkg false Hk HL) in Hk1.
    + apply (Scan_sound (OrQuery L R')) in Hq as [Hsub Hin]; [|done].
      split; [done|].
      intros k pkg b Hk Hm. rewrite Hin, Hm. split; [by intros [_ [= <-]]|].
      by intros ->.
  - (* And *)
    simpl in Hq. destruct (Fast L || Fast R') eqn:Hfast; simpl in Hq.
    + destruct (Fast L) eqn:HfastL.
      * destruct (Query L lst) as [C|] eqn:H1; [simpl in Hq|done].
        destruct (IHL _ _ Hkeyed H1) as [Hsub1 Hin1].
        apply Scan_sound in Hq as [Hsub Hin];
          [|by eapply own_keys_subseteq].
        split; [by etrans|].
        intros k pkg b Hk Hm. simpl in Hm. apply go_and_Ok in Hm.
        rewrite Hin. destruct Hm as [[HL ->]|[HL HR]].
        -- rewrite (Hin1 k pkg false Hk HL). split; [by intros [? _]|done].
        -- rewrite (Hin1 k pkg true Hk HL), HR.
           split; [by intros [_ [= <-]]|by intros ->].
      * destruct (Query R' lst) as [C|] eqn:H2; [simpl in Hq|done].
        destruct (IHR _ _ Hkeyed H2) as [Hsub2 Hin2].
        apply Scan_sound in Hq as [Hsub Hin];
          [|by eapply own_keys_subseteq].
        split; [by etrans|].
        intros k pkg b Hk Hm. simpl in Hm. apply go_and_Ok in Hm.
        rewrite Hin. destruct Hm as [[HL ->]|[HL HR]].
        -- rewrite HL. split; [by intros [_ ?]|done].
        -- rewrite (Hin2 k pkg b Hk HR), HL.
           split; [by intros [? _]|by intros ->].
    + apply (Scan_sound (AndQuery L R')) in Hq as [Hsub Hin]; [|done].
      split; [done|].
      intros k pkg b Hk Hm. rewrite Hin, Hm. split; [by intros [_ [= <-]]|].
      by intros ->.
  - (* Not *)
    apply (Scan_sound (NotQuery Q)) in Hq as [Hsub Hin]; [|done].
    split; [done|].
    intros k pkg b Hk Hm. rewrite Hin, Hm. split; [by intros [_ [= <-]]|].
    by intros ->.
  - (* Field *)
    apply (Scan_sound (FieldQuery field rel value)) in Hq as [Hsub Hin];
      [|done].
    split; [done|].
    intros k pkg b Hk Hm. rewrite Hin, Hm. split; [by intros [_ [= <-]]|].
    by intros ->.
  - (* Pkg *)
    simpl in Hq. injection Hq as <-.
    destruct (lst !! pkgKey a n v) as [found|] eqn:Hfound.
    + pose proof (Hown _ _ Hfound) as Hkey.
      replace (Add found NewPackageList)
        with ({[pkgKey a n v := found]} : PackageList)
        by (by rewrite Add_union, Hkey; unfold NewPackageList;
            rewrite (left_id ∅ (∪))).
      split.
      * by apply map_singleton_subseteq_l.
      * intros k pkg b Hk [= <-]. rewrite lookup_singleton_Some. split.
        -- intros [<- <-].
           destruct (proj1 (Hkeyed _ _ Hfound a n v) eq_refl) as (-> & -> & ->).
           by rewrite !bool_decide_eq_true_2.
        -- rewrite !andb_true_iff, !bool_decide_eq_true.
           intros [[Hn Hv] Ha].
           assert (k = pkgKey a n v) as ->
             by (apply (Hkeyed _ _ Hk); by rewrite Hn, Hv, Ha).
           split; [done|congruence].
    + unfold NewPackageList. split; [apply map_empty_subseteq|].
      intros k pkg b Hk [= <-]. rewrite lookup_empty. split; [done|].
      rewrite !andb_true_iff, !bool_decide_eq_true.
      intros [[Hn Hv] Ha].
      assert (k = pkgKey a n v) as ->
        by (apply (Hkeyed _ _ Hk); by rewrite Hn, Hv, Ha).
      congruence.
  - (* Dependency *)
    simpl in Hq. injection Hq as <-. unfold Search.
    rewrite (Add_filtered (λ pkg, MatchesDependency pkg dep = true)) by done.
    split; [apply map_filter_subseteq|].
    intros k pkg b Hk [= <-]. rewrite map_lookup_filter_Some. simpl.
    split; [by intros [_ ?]|done].
Qed.

(** A query without unimplemented relations returns on every list. *)
Lemma Query_implemented (q : PackageQuery) (lst : PackageList) :
  keyed lst → implemented q → is_Ok (Query q lst).
Proof.
  assert (Hscan : ∀ q' l, own_keys l → implemented q' →
                          is_Ok (Scan l (Matches q'))).
  { intros q' l Hown Himpl. eexists. apply Scan_Ok; [done|]. split; [|done].
    intros k pkg _. by apply Matches_implemented. }
  revert lst.
  induction q as [L IHL R IHR|L IHL R IHR|Q IHQ|field rel value|n v a|dep];
    intros lst Hkeyed Himpl; pose proof (keyed_own_keys _ Hkeyed) as Hown.
  - destruct Himpl as [HL HR]. simpl. destruct (Fast L && Fast R).
    + destruct (IHL lst Hkeyed HL) as [R1 ->].
      destruct (IHR lst Hkeyed HR) as [R2 ->]. apply is_Ok_Ok.
    + by apply (Hscan (OrQuery L R)).
  - destruct Himpl as [HL HR]. simpl. destruct (Fast L || Fast R); simpl.
    + destruct (Fast L).
      * destruct (IHL lst Hkeyed HL) as [C HC]. rewrite HC. simpl.
        apply Hscan; [|done]. apply Query_sound in HC as [Hsub _]; [|done].
        by eapply own_keys_subseteq.
      * destruct (IHR lst Hkeyed HR) as [C HC]. rewrite HC. simpl.
        apply Hscan; [|done]. apply Query_sound in HC as [Hsub _]; [|done].
        by eapply own_keys_subseteq.
    + by apply (Hscan (AndQuery L R)).
  - by apply (Hscan (NotQuery Q)).
  - by apply (Hscan (FieldQuery field rel value)).
  - apply is_Ok_Ok.
  - apply is_Ok_Ok.
Qed.

(** C1, as the code has it: on a list that satisfies the invariant of
    package lists, whenever [Query] and the brute-force scan both return they
    return the same packages, whichever path [Query] takes; and both do
    return when no [Field] node of the query uses the regexp relation or an
    unknown relation. *)
Theorem Query_agrees_with_brute_force (q : PackageQuery) (lst : PackageList) :
  keyed lst →
  (∀ R S, Query q lst = Ok R → brute_force q lst = Ok S → R = S) ∧
  (implemented q → ∃ R, Query q lst = Ok R ∧ brute_force q lst = Ok R).
Proof.
  intros Hkeyed. pose proof (keyed_own_keys _ Hkeyed) as Hown.
  assert (Hsame : ∀ R S, Query q lst = Ok R → brute_force q lst = Ok S → R = S).
  { intros R S HR HS. unfold brute_force in HS.
    pose proof HS as [Hall _]%Scan_Ok; [|done].
    apply Scan_sound in HS as [_ HinS]; [|done].
    apply Query_sound in HR as [Hsub HinR]; [|done].
    apply map_eq. intros k.
    destruct (R !! k) as [pkg|] eqn:HRk.
    - symmetry. apply HinS.
      pose proof (lookup_weaken _ _ _ _ HRk Hsub) as Hk. split; [done|].
      destruct (Hall _ _ Hk) as [b Hb]. rewrite Hb. f_equal.
      by apply (HinR k pkg b Hk Hb).
    - destruct (S !! k) as [pkg|] eqn:HSk; [|done].
      apply HinS in HSk as [Hk Hm].
      assert (R !! k = Some pkg) by by apply (HinR k pkg true Hk Hm).
      congruence. }
  split; [done|]. intros Himpl.
  destruct (Query_implemented q lst Hkeyed Himpl) as [R HR].
  assert (is_Ok (brute_force q lst)) as [S HS].
  { eexists. apply Scan_Ok; [done|]. split; [|done].
    intros k pkg _. by apply Matches_implemented. }
  exists R. split; [done|]. by rewrite (Hsame R S HR HS).
Qed.

(** C6: [FieldQuery.Matches] on a field that reaches the relation switch
    (every field but [$Version], which is handed to
    [Package.MatchesDependency] before it) panics with the not-implemented
    message for the regexp relation and with the internal message for an
    unknown relation.  The panic is the outcome of every enclosing predicate
    whose evaluation reaches the node, of the scan that evaluates it, and of
    the field query itself on a list that holds a package. *)
Theorem FieldQuery_unsupported_relation_aborts (field value : string) (rel : Z)
    (q : PackageQuery) (lst : PackageList) (k : string) (pkg : Package) :
  field ≠ "$Version" →
  rel = VersionRegexp ∨ unknown_relation rel →
  evaluates pkg (FieldQuery field rel value) q →
  own_keys lst → lst !! k = Some pkg →
  let msg := if decide (rel = VersionRegexp)
             then "regexp matching not implemented yet"
             else "unknown relation" in
  Matches (FieldQuery field rel value) pkg = Panic msg ∧
  Matches q pkg = Panic msg ∧
  (∃ msg', brute_force q lst = Panic msg') ∧
  Query (FieldQuery field rel value) lst = Panic msg.
Proof.
  intros Hfield Hrel Hev Hown Hk msg.
  assert (Hpanic : ∀ pkg',
            Matches (FieldQuery field rel value) pkg' = Panic msg).
  { intros pkg'. simpl. unfold FieldMatches, msg.
    rewrite decide_False by done.
    unfold unknown_relation, VersionDontCare, VersionEqual, VersionGreater,
      VersionGreaterOrEqual, VersionLess, VersionLessOrEqual,
      VersionPatternMatch, VersionRegexp in *.
    repeat case_decide; try done; lia. }
  split; [done|]. split; [by eapply evaluates_Panic|]. split.
  - apply Scan_Panic; [done|]. exists k, pkg, msg. split; [done|].
    by eapply evaluates_Panic.
  - change (Scan lst (Matches (FieldQuery field rel value)) = Panic msg).
    unfold Scan.
    assert (Hin : pkg ∈ packages lst) by (apply elem_of_packages; eauto).
    destruct (packages lst) as [|first rest]; [by apply elem_of_nil in Hin|].
    unfold scan_from. by rewrite Hpanic.
Qed.

(** C9: a [Pkg] query matches a package only on the exact architecture: a
    package of architecture [all] does not match a query that names another
    architecture, although the architecture rule would accept it; and on a
    list that satisfies the invariant of package lists, [Query] returns the
    packages of the list with exactly the (architecture, name, version) of
    the query. *)
Theorem PkgQuery_exact_architecture (name version arch : string)
    (pkg : Package) (lst : PackageList) :
  keyed lst →
  (Matches (PkgQuery name version arch) pkg = Ok true →
   Architecture pkg = arch) ∧
  (Architecture pkg = "all" → arch ≠ "all" →
   Matches (PkgQuery name version arch) pkg = Ok false ∧
   MatchesArchitecture pkg arch = true) ∧
  (∃ R, Query (PkgQuery name version arch) lst = Ok R ∧
        ∀ k p, R !! k = Some p ↔
               lst !! k = Some p ∧ Name p = name ∧ Version p = version ∧
               Architecture p = arch).
Proof.
  intros Hkeyed. split; [|split].
  - simpl. intros [= Hm]. rewrite !andb_true_iff, !bool_decide_eq_true in Hm.
    by destruct Hm as [_ ?].
  - intros Hall Hne. split.
    + simpl. f_equal. rewrite (bool_decide_eq_false_2 (Architecture pkg = arch))
        by congruence. by rewrite andb_false_r.
    + unfold MatchesArchitecture. by rewrite bool_decide_eq_true_2.
  - destruct (Query (PkgQuery name version arch) lst) as [R|] eqn:HR; [|done].
    exists R. split; [done|].
    apply Query_sound in HR as [Hsub Hin]; [|done]. intros k p. split.
    + intros HRk. pose proof (lookup_weaken _ _ _ _ HRk Hsub) as Hk.
      split; [done|].
      apply (Hin k p _ Hk eq_refl) in HRk.
      rewrite !andb_true_iff, !bool_decide_eq_true in HRk.
      by destruct HRk as [[? ?] ?].
    + intros (Hk & Hn & Hv & Ha). apply (Hin k p _ Hk eq_refl).
      by rewrite !andb_true_iff, !bool_decide_eq_true.
Qed.

End QueryFacts.

(** *** The queries on the sample list *)

(** The fast path of [And] (a key lookup, then a scan of the one candidate)
    and the scan of the whole list return the same list. *)
Example Query_sample_fast_and_slow :
  let q := AndQuery (PkgQuery "zsh" "5.8" "amd64")
                    (FieldQuery "Section" VersionEqual "shells") in
  @Fast q = true ∧
  @Query sample_ops q sample_list = Ok {[Key zsh := zsh]} ∧
  @brute_force sample_ops q sample_list = Ok {[Key zsh := zsh]}.
Proof. by_evaluation. Qed.

Lemma Query_agrees_with_brute_force_witness :
  let q := AndQuery (PkgQuery "zsh" "5.8" "amd64")
                    (FieldQuery "Section" VersionEqual "shells") in
  keyed sample_list ∧
  ((∀ R S, @Query sample_ops q sample_list = Ok R →
           @brute_force sample_ops q sample_list = Ok S → R = S) ∧
   (implemented q →
    ∃ R, @Query sample_ops q sample_list = Ok R ∧
         @brute_force sample_ops q sample_list = Ok R)).
Proof.
  intros q.
  assert (Hkeyed : keyed sample_list).
  { apply well_keyed_keyed. by_evaluation. }
  split; [exact Hkeyed|].
  exact (@Query_agrees_with_brute_force sample_ops q sample_list Hkeyed).
Defined.

(** C1 as stated fails: with a [Field] node of the regexp relation on the
    slow side of a fast [And], [Query] looks up the [Pkg] side, finds no
    candidate and returns the empty list without evaluating the [Field]
    node, while the brute-force scan evaluates it on the first package and
    panics: it returns no list to compare with. *)
Lemma Query_fast_path_skips_panic :
  let q := AndQuery (FieldQuery "Section" VersionRegexp "^sh")
                    (PkgQuery "bash" "5.1" "amd64") in
  keyed sample_list ∧
  @Query sample_ops q sample_list = Ok ∅ ∧
  @brute_force sample_ops q sample_list
  = Panic "regexp matching not implemented yet" ∧
  @Query sample_ops q sample_list ≠ @brute_force sample_ops q sample_list.
Proof.
  split; [|by_evaluation].
  apply well_keyed_keyed. by_evaluation.
Qed.

Lemma FieldQuery_unsupported_relation_aborts_witness :
  let sub := FieldQuery "Section" VersionRegexp "^sh" in
  let q := OrQuery (PkgQuery "bash" "5.1" "amd64") (NotQuery sub) in
  ("Section" ≠ "$Version" ∧
   (VersionRegexp = VersionRegexp ∨ unknown_relation VersionRegexp) ∧
   @evaluates sample_ops zsh sub q ∧
   own_keys sample_list ∧ sample_list !! Key zsh = Some zsh) ∧
  (@Matches sample_ops sub zsh = Panic "regexp matching not implemented yet" ∧
   @Matches sample_ops q zsh = Panic "regexp matching not implemented yet" ∧
   (∃ msg', @brute_force sample_ops q sample_list = Panic msg') ∧
   @Query sample_ops sub sample_list
   = Panic "regexp matching not implemented yet").
Proof.
  intros sub q.
  assert (Hfield : "Section" ≠ "$Version") by done.
  assert (Hrel : VersionRegexp = VersionRegexp ∨ unknown_relation VersionRegexp)
    by by left.
  assert (Hev : @evaluates sample_ops zsh sub q).
  { apply evaluates_or_r; [by_evaluation|].
    apply evaluates_not, evaluates_here. }
  assert (Hown : own_keys sample_list).
  { apply keyed_own_keys, well_keyed_keyed. by_evaluation. }
  assert (Hk : sample_list !! Key zsh = Some zsh) by by_evaluation.
  split; [done|].
  exact (@FieldQuery_unsupported_relation_aborts sample_ops "Section" "^sh"
           VersionRegexp q sample_list (Key zsh) zsh Hfield Hrel Hev Hown Hk).
Defined.

Lemma PkgQuery_exact_architecture_witness :
  keyed sample_list ∧
  ((@Matches sample_ops (PkgQuery "bash-doc" "5.1" "amd64") bash_doc = Ok true →
    Architecture bash_doc = "amd64") ∧
   (Architecture bash_doc = "all" → "amd64" ≠ "all" →
    @Matches sample_ops (PkgQuery "bash-doc" "5.1" "amd64") bash_doc = Ok false ∧
    MatchesArchitecture bash_doc "amd64" = true) ∧
   (∃ R, @Query sample_ops (PkgQuery "bash-doc" "5.1" "amd64") sample_list = Ok R ∧
         ∀ k p, R !! k = Some p ↔
                sample_list !! k = Some p ∧ Name p = "bash-doc" ∧
                Version p = "5.1" ∧ Architecture p = "amd64")).
Proof.
  assert (Hkeyed : keyed sample_list).
  { apply well_keyed_keyed. by_evaluation. }
  split; [exact Hkeyed|].
  exact (@PkgQuery_exact_architecture sample_ops "bash-doc" "5.1" "amd64"
           bash_doc sample_list Hkeyed).
Defined.

(** The package of architecture [all] is in the list, and the [Pkg] query
    that names [amd64] returns nothing. *)
Example PkgQuery_all_not_found :
  sample_list !! Key bash_doc = Some bash_doc ∧
  @Query sample_ops (PkgQuery "bash-doc" "5.1" "amd64") sample_list = Ok ∅ ∧
  @Query sample_ops (PkgQuery "bash-doc" "5.1" "all") sample_list
  = Ok {[Key bash_doc := bash_doc]}.
Proof. by_evaluation. Qed.

(** ** Allocation and update of lists by the queries *)

Lemma unchanged_refl (h : Heap) : unchanged h h.
Proof. by intros i L. Qed.

Lemma unchanged_trans (h1 h2 h3 : Heap) :
  unchanged h1 h2 → unchanged h2 h3 → unchanged h1 h3.
Proof. intros H12 H23 i L Hi. by apply H23, H12. Qed.

Lemma only_at_refl (r : nat) (h : Heap) : only_at r h h.
Proof. by split. Qed.

Lemma only_at_trans (r : nat) (h1 h2 h3 : Heap) :
  only_at r h1 h2 → only_at r h2 h3 → only_at r h1 h3.
Proof.
  intros [Hlen12 H12] [Hlen23 H23]. split; [congruence|].
  intros i Hi. by rewrite H23, H12.
Qed.

(** An update of a list allocated after [h0] changes no list of [h0]. *)
Lemma only_at_unchanged (r : nat) (h0 h h' : Heap) :
  unchanged h0 h → h0 !! r = None → only_at r h h' → unchanged h0 h'.
Proof.
  intros H0 Hr [_ Hat] i L Hi. rewrite Hat; [by apply H0|].
  intros ->. congruence.
Qed.

Lemma only_at_is_Some (r i : nat) (h h' : Heap) :
  only_at r h h' → is_Some (h !! i) → is_Some (h' !! i).
Proof.
  intros [Hlen _]. rewrite !lookup_lt_is_Some. by rewrite Hlen.
Qed.

Lemma unchanged_alloc (h : Heap) (L : PackageList) : unchanged h (h ++ [L]).
Proof. intros i L' Hi. by apply lookup_app_l_Some. Qed.

Lemma AddH_only_at (pkg : Package) (r : nat) (h : Heap) :
  only_at r h (AddH pkg r h).2.
Proof.
  unfold AddH. destruct (h !! r) as [L|]; simpl; [|apply only_at_refl].
  split; [apply length_insert|]. intros i Hi.
  by apply list_lookup_insert_ne.
Qed.

Lemma for_each_only_at {A} (xs : list A) (body : A → M unit) (r : nat) :
  (∀ x h, only_at r h (body x h).2) →
  ∀ h, only_at r h (for_each xs body h).2.
Proof.
  intros Hbody. induction xs as [|x xs IH]; intros h; simpl.
  - apply only_at_refl.
  - change (only_at r h (bindH (body x) (λ _, for_each xs body) h).2).
    unfold bindH. pose proof (Hbody x h) as Hx.
    destruct (body x h) as [[[]|msg] h1]; simpl in *; [|done].
    eapply only_at_trans; [done|apply IH].
Qed.

Lemma bindH_run {A B} (c : M A) (f : A → M B) (h : Heap) :
  (c ≫= f) h = match c h with
               | (Ok a, h') => f a h'
               | (Panic msg, h') => (Panic msg, h')
               end.
Proof. reflexivity. Qed.

Lemma scan_body_only_at (matches : Package → result bool) (r : nat)
    (pkg : Package) (h : Heap) :
  only_at r h (scan_body matches r pkg h).2.
Proof.
  unfold scan_body. rewrite bindH_run. unfold liftH.
  destruct (matches pkg) as [[]|msg]; simpl;
    [apply AddH_only_at|apply only_at_refl..].
Qed.

(** A call that allocates a list and then updates only that list changes
    no list that existed before, and the list it returns is new. *)
Lemma alloc_then_update_fresh (h h1 : Heap) (res : result unit) :
  only_at (length h) (h ++ [NewPackageList]) h1 →
  fresh_result h (match res with
                  | Ok _ => (Ok (length h), h1)
                  | Panic msg => (Panic msg, h1)
                  end).
Proof.
  intros Hat.
  assert (Hnew : h !! length h = None) by by apply lookup_ge_None_2.
  assert (Hun : unchanged h h1)
    by (eapply only_at_unchanged; [apply unchanged_alloc|done..]).
  destruct res as [[]|msg]; (split; [done|]); [|done].
  intros r [= <-]. split; [done|].
  eapply only_at_is_Some; [done|].
  apply lookup_lt_is_Some. rewrite length_app. simpl. lia.
Qed.

(** A scan changes no list and returns a list it allocated. *)
Lemma ScanH_fresh (l : nat) (matches : Package → result bool) (h : Heap) :
  fresh_result h (ScanH l matches h).
Proof.
  unfold ScanH. rewrite bindH_run. unfold loadH.
  destruct (h !! l) as [L|]; [|split; [apply unchanged_refl|done]].
  rewrite bindH_run. unfold NewPackageListH. rewrite bindH_run.
  pose proof (for_each_only_at (packages L) (scan_body matches (length h))
                (length h) (scan_body_only_at matches (length h))
                (h ++ [NewPackageList])) as Hloop.
  destruct (for_each (packages L) (scan_body matches (length h))
              (h ++ [NewPackageList])) as [res h1].
  by apply (alloc_then_update_fresh h h1 res).
Qed.

Lemma AppendH_only_at (l pl : nat) (h : Heap) :
  only_at l h (AppendH l pl h).2.
Proof.
  unfold AppendH. rewrite bindH_run. unfold loadH.
  destruct (h !! pl) as [PL|]; [|apply only_at_refl].
  apply for_each_only_at. intros pkg h'. apply AddH_only_at.
Qed.

Lemma AddH_run (pkg : Package) (r : nat) (h : Heap) (acc : PackageList) :
  h !! r = Some acc → AddH pkg r h = (Ok tt, <[r := Add pkg acc]> h).
Proof. intros Hr. unfold AddH. by rewrite Hr. Qed.

Lemma insert_insert_same (r : nat) (h : Heap) (X Y : PackageList) :
  <[r := X]> (<[r := Y]> h) = <[r := X]> h.
Proof. apply list_insert_insert_eq. Qed.

Lemma for_each_AddH (pkgs : list Package) (r : nat) (h : Heap)
    (acc : PackageList) :
  h !! r = Some acc →
  for_each pkgs (λ pkg, AddH pkg r) h
  = (Ok tt, <[r := foldl (λ a pkg, Add pkg a) acc pkgs]> h).
Proof.
  revert h acc. induction pkgs as [|pkg pkgs IH]; intros h acc Hr; simpl.
  - by rewrite list_insert_id.
  - rewrite bindH_run, (AddH_run pkg r h acc Hr).
    rewrite (IH _ (Add pkg acc)), insert_insert_same; [done|].
    apply list_lookup_insert_eq. by eapply lookup_lt_Some.
Qed.

Lemma scan_body_run (matches : Package → result bool) (r : nat)
    (pkg : Package) (h : Heap) :
  scan_body matches r pkg h
  = match matches pkg with
    | Ok true => AddH pkg r h
    | Ok false => (Ok tt, h)
    | Panic msg => (Panic msg, h)
    end.
Proof.
  unfold scan_body. rewrite bindH_run. unfold liftH.
  by destruct (matches pkg) as [[]|msg].
Qed.

Lemma for_each_scan (matches : Package → result bool) (pkgs : list Package)
    (r : nat) (h : Heap) (acc : PackageList) :
  h !! r = Some acc →
  match scan_from matches pkgs acc with
  | Ok R => for_each pkgs (scan_body matches r) h = (Ok tt, <[r := R]> h)
  | Panic msg => (for_each pkgs (scan_body matches r) h).1 = Panic msg
  end.
Proof.
  revert h acc. induction pkgs as [|pkg pkgs IH]; intros h acc Hr; simpl.
  - by rewrite list_insert_id.
  - rewrite bindH_run, scan_body_run.
    destruct (matches pkg) as [[]|msg]; simpl; [| |done].
    + rewrite (AddH_run pkg r h acc Hr).
      assert (Hr' : <[r := Add pkg acc]> h !! r = Some (Add pkg acc)).
      { apply list_lookup_insert_eq. by eapply lookup_lt_Some. }
      pose proof (IH _ _ Hr') as Hrest.
      destruct (scan_from matches pkgs (Add pkg acc)) as [R|msg]; [|done].
      by rewrite Hrest, insert_insert_same.
    + by apply IH.
Qed.

Lemma ScanH_agrees (l : nat) (matches : Package → result bool) (h : Heap)
    (L : PackageList) :
  h !! l = Some L → agrees (Scan L matches) (ScanH l matches h).
Proof.
  intros Hl. unfold ScanH, Scan. rewrite bindH_run. unfold loadH.
  rewrite Hl, bindH_run. unfold NewPackageListH. rewrite bindH_run.
  assert (Hr : (h ++ [NewPackageList]) !! length h = Some NewPackageList).
  { rewrite lookup_app_r by done. by rewrite Nat.sub_diag. }
  pose proof (for_each_scan matches (packages L) _ _ _ Hr) as Hloop.
  destruct (scan_from matches (packages L) NewPackageList) as [R|msg]; simpl.
  - rewrite Hloop. exists (length h). split; [done|]. simpl.
    apply list_lookup_insert_eq. rewrite length_app. simpl. lia.
  - destruct (for_each (packages L) (scan_body matches (length h))
                (h ++ [NewPackageList])) as [res h1].
    simpl in Hloop. by rewrite Hloop.
Qed.

Section HeapFacts.

Context {ops : PackageOps}.

(** A query node that first runs the query [inner] and then scans its
    result. *)
Lemma query_then_scan_fresh (inner : M nat)
    (matches : Package → result bool) (h : Heap) :
  fresh_result h (inner h) →
  fresh_result h ((result ← inner; ScanH result matches) h).
Proof.
  intros [Hun1 Hfresh1]. rewrite bindH_run.
  destruct (inner h) as [[r1|msg] h1]; [|by split].
  destruct (ScanH_fresh r1 matches h1) as [Hun2 Hfresh2].
  split; [by eapply unchanged_trans|].
  intros r Hr. destruct (Hfresh2 r Hr) as [Hnew Hsome]. split; [|done].
  destruct (h !! r) as [Lr|] eqn:Hhr; [|done].
  apply Hun1 in Hhr. simpl in Hhr. congruence.
Qed.

(** C8: whatever the query and the list, [Query] changes no list that
    existed before the call, the queried list among them, and the pointer it
    returns is to a list allocated during the call. *)
Theorem QueryH_fresh (q : PackageQuery) (l : nat) (h : Heap) :
  fresh_result h (QueryH q l h).
Proof.
  revert l h.
  induction q as [L IHL R IHR|L IHL R IHR|Q IHQ|field rel value|n v a|dep];
    intros l h; simpl.
  - (* Or *)
    destruct (Fast L && Fast R); [|apply ScanH_fresh].
    rewrite bindH_run. destruct (IHL l h) as [Hun1 Hfresh1].
    destruct (QueryH L l h) as [[r1|msg] h1]; [|by split].
    destruct (Hfresh1 r1 eq_refl) as [Hnew1 [R1 HR1]].
    rewrite bindH_run. destruct (IHR l h1) as [Hun2 Hfresh2].
    destruct (QueryH R l h1) as [[r2|msg] h2];
      [|split; [by eapply unchanged_trans|done]].
    rewrite bindH_run. pose proof (AppendH_only_at r1 r2 h2) as Hat.
    destruct (AppendH r1 r2 h2) as [res h3]. simpl in Hun1, Hun2, HR1, Hat.
    assert (Hun3 : unchanged h h3).
    { eapply only_at_unchanged; [by eapply unchanged_trans|done..]. }
    destruct res as [[]|msg]; (split; [done|]); [|done].
    intros r [= <-]. split; [done|].
    eapply only_at_is_Some; [done|]. exists R1. by apply Hun2.
  - (* And *)
    destruct (Fast L || Fast R); simpl; [|apply ScanH_fresh].
    destruct (Fast L); by apply query_then_scan_fresh.
  - apply ScanH_fresh.
  - apply ScanH_fresh.
  - (* Pkg *)
    rewrite bindH_run. unfold NewPackageListH. rewrite bindH_run.
    unfold loadH.
    destruct ((h ++ [NewPackageList]) !! l) as [Ll|];
      [|by apply (alloc_then_update_fresh h _ (Panic _)), only_at_refl].
    rewrite bindH_run.
    set (add := match Ll !! pkgKey a n v with
                | Some pkg => AddH pkg (length h)
                | None => mret tt
                end).
    assert (Hat : only_at (length h) (h ++ [NewPackageList])
                    (add (h ++ [NewPackageList])).2).
    { unfold add.
      destruct (Ll !! pkgKey a n v); [apply AddH_only_at|apply only_at_refl]. }
    destruct (add (h ++ [NewPackageList])) as [res h1].
    by apply (alloc_then_update_fresh h h1 res).
  - (* Dependency *)
    rewrite bindH_run. unfold NewPackageListH. rewrite bindH_run.
    unfold loadH.
    destruct ((h ++ [NewPackageList]) !! l) as [Ll|];
      [|by apply (alloc_then_update_fresh h _ (Panic _)), only_at_refl].
    rewrite bindH_run.
    match goal with
    | |- context [for_each ?found ?body ?h0] =>
        pose proof (for_each_only_at found body (length h)
                      (λ pkg h', AddH_only_at pkg (length h) h') h0) as Hat;
        destruct (for_each found body h0) as [res h1]
    end.
    by apply (alloc_then_update_fresh h h1 res).
Qed.

(** The queries on the heap compute what the queries on the contents of
    the lists compute. *)
Lemma QueryH_agrees (q : PackageQuery) (l : nat) (h : Heap) (L : PackageList) :
  h !! l = Some L → agrees (Query q L) (QueryH q l h).
Proof.
  revert l h L.
  induction q as [A IHA B IHB|A IHA B IHB|Q IHQ|field rel value|n v a|dep];
    intros l h L Hl; simpl.
  - (* Or *)
    destruct (Fast A && Fast B); [|by apply ScanH_agrees].
    rewrite bindH_run. pose proof (IHA l h L Hl) as H1.
    destruct (QueryH_fresh A l h) as [Hun1 _].
    destruct (Query A L) as [R1|msg]; simpl in *;
      [|by destruct (QueryH A l h) as [res h1]; simpl in *; subst res].
    destruct H1 as (r1 & Hres1 & HR1).
    destruct (QueryH A l h) as [res h1]. simpl in *. subst res.
    rewrite bindH_run. pose proof (IHB l h1 L (Hun1 _ _ Hl)) as H2.
    destruct (QueryH_fresh B l h1) as [Hun2 _].
    destruct (Query B L) as [R2|msg]; simpl in *;
      [|by destruct (QueryH B l h1) as [res h2]; simpl in *; subst res].
    destruct H2 as (r2 & Hres2 & HR2).
    destruct (QueryH B l h1) as [res h2]. simpl in *. subst res.
    rewrite bindH_run. unfold AppendH. rewrite bindH_run. unfold loadH.
    rewrite HR2, (for_each_AddH _ r1 h2 R1) by by apply Hun2.
    exists r1. split; [done|]. simpl.
    apply list_lookup_insert_eq. eapply lookup_lt_Some. by apply Hun2.
  - (* And *)
    destruct (Fast A || Fast B); simpl; [|by apply ScanH_agrees].
    destruct (Fast A).
    + rewrite bindH_run. pose proof (IHA l h L Hl) as H1.
      destruct (Query A L) as [C|msg]; simpl in *;
        [|by destruct (QueryH A l h) as [res h1]; simpl in *; subst res].
      destruct H1 as (r1 & Hres1 & HC).
      destruct (QueryH A l h) as [res h1]. simpl in *. subst res.
      by apply ScanH_agrees.
    + rewrite bindH_run. pose proof (IHB l h L Hl) as H1.
      destruct (Query B L) as [C|msg]; simpl in *;
        [|by destruct (QueryH B l h) as [res h1]; simpl in *; subst res].
      destruct H1 as (r1 & Hres1 & HC).
      destruct (QueryH B l h) as [res h1]. simpl in *. subst res.
      by apply ScanH_agrees.
  - by apply (ScanH_agrees l (Matches (NotQuery Q))).
  - by apply (ScanH_agrees l (Matches (FieldQuery field rel value))).
  - (* Pkg *)
    rewrite bindH_run. unfold NewPackageListH. rewrite bindH_run.
    unfold loadH. rewrite (lookup_app_l_Some _ _ _ _ Hl), bindH_run.
    assert (Hr : (h ++ [NewPackageList]) !! length h = Some NewPackageList).
    { rewrite lookup_app_r by done. by rewrite Nat.sub_diag. }
    exists (length h). destruct (L !! pkgKey a n v) as [pkg|].
    + rewrite (AddH_run pkg _ _ _ Hr). split; [done|]. simpl.
      apply list_lookup_insert_eq. rewrite length_app. simpl. lia.
    + by split.
  - (* Dependency *)
    rewrite bindH_run. unfold NewPackageListH. rewrite bindH_run.
    unfold loadH. rewrite (lookup_app_l_Some _ _ _ _ Hl), bindH_run.
    assert (Hr : (h ++ [NewPackageList]) !! length h = Some NewPackageList).
    { rewrite lookup_app_r by done. by rewrite Nat.sub_diag. }
    rewrite (for_each_AddH _ _ _ _ Hr).
    exists (length h). split; [done|]. simpl.
    apply list_lookup_insert_eq. rewrite length_app. simpl. lia.
Qed.

End HeapFacts.

(** On the sample list, the fast path of [Or] allocates a list for each
    side and adds the second to the first; the queried list, at index 0, is
    as before, and the result is the list at index 1. *)
Example QueryH_sample_or :
  let q := OrQuery (PkgQuery "zsh" "5.8" "amd64")
                   (DependencyQuery (mkDependency "bash-doc" VersionDontCare "")) in
  @QueryH sample_ops q 0 [sample_list]
  = (Ok 1%nat, [sample_list; sample_list; {[Key bash_doc := bash_doc]}]).
Proof. by_evaluation. Qed.

(** ** Publishing *)

Lemma bindIO_run {A B} (c : IO A) (f : A → IO B) (repo : Repository) :
  (c ≫= f) repo = match c repo with
                  | (inr a, repo') => f a repo'
                  | (inl err, repo') => (inl err, repo')
                  end.
Proof. reflexivity. Qed.

Lemma raises_weaken {A} (c : IO A) (P Q : error → Prop) :
  (∀ err, P err → Q err) → raises c P → raises c Q.
Proof. intros HPQ Hc repo err repo' Hrun. eapply HPQ, Hc, Hrun. Qed.

Lemma raises_ret {A} (a : A) (P : error → Prop) : raises (mret a) P.
Proof. by intros repo err repo'. Qed.

Lemma raises_bind {A B} (c : IO A) (f : A → IO B) (P : error → Prop) :
  raises c P → (∀ a, raises (f a) P) → raises (c ≫= f) P.
Proof.
  intros Hc Hf repo err repo'. rewrite bindIO_run.
  destruct (c repo) as [[err1|a] repo1] eqn:Hrun.
  - intros [= <- <-]. by eapply Hc.
  - apply Hf.
Qed.

Lemma raises_wrap {A} (format : string) (c : IO A) :
  raises (wrap format c) (λ err, ∃ cause, err = Wrapped format cause).
Proof.
  intros repo err repo'. unfold wrap.
  destruct (c repo) as [[err1|a] repo1]; [|done].
  intros [= <- <-]. by exists err1.
Qed.

Section PublishFacts.

Context {world : Collaborators}.

Lemma raises_call (c : Call) :
  raises (call c) (λ err, ∃ msg, err = External msg).
Proof.
  intros repo err repo'. unfold call.
  destruct (fails repo c) as [msg|]; [|done].
  intros [= <- <-]. by exists msg.
Qed.

Lemma raises_call_ignoring_error (c : Call) (P : error → Prop) :
  raises (call_ignoring_error c) P.
Proof. by intros repo err repo'. Qed.

Lemma raises_late_call (c : Call) : raises (call c) late_error.
Proof.
  eapply raises_weaken; [|apply raises_call]. by intros err [msg ->].
Qed.

(** An error wrapped with one of the formats of the later steps. *)
Lemma raises_late_wrap {A} (format : string) (c : IO A) :
  late_error (Wrapped format (External format)) →
  raises (wrap format c) late_error.
Proof.
  intros Hlate. eapply raises_weaken; [|apply raises_wrap].
  intros err [cause ->]. exact Hlate.
Qed.

Lemma raises_late_publish_architecture (p : PublishedRepo) (lst : PackageList)
    (generatedFiles : gmap string ChecksumInfo) (arch : string) :
  raises (publish_architecture p lst generatedFiles arch) late_error.
Proof.
  unfold publish_architecture.
  repeat first
    [ apply raises_bind; [|intros ?]
    | apply raises_late_call
    | by apply raises_late_wrap
    | apply raises_call_ignoring_error
    | apply raises_ret ].
Qed.

Lemma raises_late_publish_architectures (p : PublishedRepo) (lst : PackageList)
    (archs : list string) (generatedFiles : gmap string ChecksumInfo) :
  raises (publish_architectures p lst archs generatedFiles) late_error.
Proof.
  revert generatedFiles. induction archs as [|arch archs IH];
    intros generatedFiles; simpl.
  - apply raises_ret.
  - apply raises_bind; [apply raises_late_publish_architecture|done].
Qed.

Lemma raises_late_write_release (p : PublishedRepo) (release : Stanza) :
  raises (write_release p release) late_error.
Proof.
  unfold write_release.
  repeat first
    [ apply raises_bind; [|intros ?]
    | by apply raises_late_wrap
    | apply raises_call_ignoring_error ].
Qed.

Lemma late_error_not_early (err : error) :
  late_error err → ¬ early_error err.
Proof.
  intros Hlate [-> | [[cause ->] | ->]]; by vm_compute in Hlate.
Qed.

(** The steps before the package list is looked at. *)
Lemma load_packages_run (p : PublishedRepo) (collection : PackageCollection)
    (repo : Repository) :
  load_packages p collection repo
  = match fails repo (MkDir (filepath_Join [Prefix p; "pool"])) with
    | Some msg => (inl (External msg), repo)
    | None =>
        match fails (repo ++ [MkDir (filepath_Join [Prefix p; "pool"])])
                    (MkDir (basePath p)) with
        | Some msg =>
            (inl (External msg),
             repo ++ [MkDir (filepath_Join [Prefix p; "pool"])])
        | None =>
            match NewPackageListFromRefList (RefList (snapshot p)) collection with
            | inl err =>
                (inl (Wrapped "unable to load packages: %s" err),
                 repo ++ first_directories p)
            | inr lst => (inr lst, repo ++ first_directories p)
            end
        end
    end.
Proof.
  unfold load_packages, first_directories. rewrite bindIO_run. unfold call at 1.
  destruct (fails repo _) as [msg|]; [done|].
  rewrite bindIO_run. unfold call at 1.
  destruct (fails (repo ++ _) _) as [msg|]; [done|].
  unfold wrap. rewrite <- (assoc_L (++)). simpl.
  by destruct (NewPackageListFromRefList _ _).
Qed.

(** C4: when the snapshot materializes to an empty package list, [Publish]
    fails and creates no file, so no Release file; and once the two
    directories are created, the error is the empty-repository error and the
    two directory creations are all that happened. *)
Theorem Publish_empty_repository (p : PublishedRepo)
    (collection : PackageCollection) (repo : Repository) (lst : PackageList) :
  NewPackageListFromRefList (RefList (snapshot p)) collection = inr lst →
  Len lst = 0%nat →
  (Publish p collection repo).1.1 ≠ None ∧
  (∀ path, CreateFile path ∈ (Publish p collection repo).2 →
           CreateFile path ∈ repo) ∧
  (directories_created p repo →
   (Publish p collection repo).1.1
   = Some (Errorf "repository is empty, can't publish") ∧
   (Publish p collection repo).2 = repo ++ first_directories p).
Proof.
  intros Hload Hlen. unfold Publish, directories_created.
  rewrite load_packages_run, Hload.
  destruct (fails repo _) as [msg|]; simpl.
  { split; [done|]. split; [done|]. by intros [[=] _]. }
  destruct (fails (repo ++ _) _) as [msg|]; simpl.
  { split; [done|]. split; [|by intros [_ [=]]].
    intros path [Hin|Hin]%elem_of_app; [done|].
    by apply list_elem_of_singleton in Hin. }
  rewrite decide_True by done. simpl. split; [done|]. split; [|done].
  intros path [Hin|Hin]%elem_of_app; [done|].
  unfold first_directories in Hin.
  apply elem_of_cons in Hin as [[=]|Hin].
  by apply list_elem_of_singleton in Hin.
Qed.

Lemma elem_of_list_Architectures (lst : PackageList) (arch : string) :
  arch ∈ list_Architectures lst ↔
  ∃ k pkg, lst !! k = Some pkg ∧ Architecture pkg = arch.
Proof.
  unfold list_Architectures. rewrite elem_of_remove_dups, list_elem_of_fmap.
  split.
  - intros (pkg & -> & [k Hk]%elem_of_packages). by exists k, pkg.
  - intros (k & pkg & Hk & <-). exists pkg. split; [done|].
    apply elem_of_packages. by exists k.
Qed.

(** C5: once the package list is materialized and not empty, the
    architectures [Publish] works with and leaves in the published
    repository are the ones supplied, or else each architecture present in
    the package list, once; and when there is none, [Publish] fails with the
    missing-architectures error having made no call after the two directory
    creations. *)
Theorem Publish_architectures (p : PublishedRepo)
    (collection : PackageCollection) (repo : Repository) (lst : PackageList) :
  directories_created p repo →
  NewPackageListFromRefList (RefList (snapshot p)) collection = inr lst →
  Len lst ≠ 0%nat →
  let archs := match Architectures p with
               | Some supplied => supplied
               | None => list_Architectures lst
               end in
  Architectures (Publish p collection repo).1.2 = Some archs ∧
  (Architectures p = None →
   NoDup archs ∧
   ∀ arch, arch ∈ archs ↔
           ∃ k pkg, lst !! k = Some pkg ∧ Architecture pkg = arch) ∧
  (archs = [] →
   (Publish p collection repo).1.1
   = Some (Errorf "unable to figure out list of architectures, please supply explicit list") ∧
   (Publish p collection repo).2 = repo ++ first_directories p).
Proof.
  intros [Hpool Hbase] Hload Hlen archs. unfold Publish.
  rewrite load_packages_run, Hpool, Hbase, Hload.
  rewrite decide_False by done. simpl.
  assert (Harchs : Architectures (infer_Architectures p lst) = Some archs).
  { unfold infer_Architectures, archs.
    by destruct (Architectures p) as [supplied|] eqn:Hp. }
  rewrite Harchs. simpl. split; [|split].
  - destruct (decide (length archs = 0%nat)); [done|]. simpl.
    by destruct (_ ≫= _) as [[?|?] ?].
  - intros Hnil. unfold archs. rewrite Hnil. split.
    + apply NoDup_remove_dups.
    + apply elem_of_list_Architectures.
  - intros ->. by rewrite decide_True.
Qed.

(** C10: when [Publish] fails with the empty-repository error, with the
    error of an unresolved package reference or with the
    missing-architectures error, the pool directory and the distribution
    directory have been created: the calls made are those made before
    followed by the two directory creations. *)
Theorem Publish_early_error_after_directories (p : PublishedRepo)
    (collection : PackageCollection) (repo : Repository) (err : error) :
  (Publish p collection repo).1.1 = Some err → early_error err →
  (Publish p collection repo).2 = repo ++ first_directories p ∧
  MkDir (filepath_Join [Prefix p; "pool"]) ∈ (Publish p collection repo).2 ∧
  MkDir (basePath p) ∈ (Publish p collection repo).2 ∧
  (Publish p collection repo).2 ≠ repo.
Proof.
  intros Herr Hearly.
  assert (Hcalls : (Publish p collection repo).2 = repo ++ first_directories p).
  { revert Herr. unfold Publish. rewrite load_packages_run.
    destruct (fails repo _) as [msg|]; simpl.
    { intros [= <-]. by destruct Hearly as [?|[[? ?]|?]]. }
    destruct (fails (repo ++ _) _) as [msg|]; simpl.
    { intros [= <-]. by destruct Hearly as [?|[[? ?]|?]]. }
    destruct (NewPackageListFromRefList _ _) as [cause|lst]; simpl; [done|].
    destruct (decide (Len lst = 0%nat)); [done|].
    destruct (decide (length _ = 0%nat)); [done|]. simpl.
    destruct (_ ≫= _) as [[late|?] repo2] eqn:Hrun; simpl; [|done].
    intros [= ->]. exfalso. apply (late_error_not_early err); [|done].
    eapply (raises_bind _ _ late_error); [| |exact Hrun].
    - apply raises_late_publish_architectures.
    - intros generatedFiles. apply raises_late_write_release. }
  rewrite Hcalls. unfold first_directories. split; [done|].
  split; [|split].
  - apply elem_of_app. right. by left.
  - apply elem_of_app. right. right. by left.
  - intros Heq. apply (f_equal length) in Heq.
    rewrite length_app in Heq. simpl in Heq. lia.
Qed.

(** *** The generated files and the Release file *)

Lemma wrap_call_run (format : string) (c : Call) (repo : Repository) :
  wrap format (call c) repo
  = match fails repo c with
    | Some msg => (inl (Wrapped format (External msg)), repo)
    | None => (inr tt, repo ++ [c])
    end.
Proof. unfold wrap, call. by destruct (fails repo c). Qed.

Lemma wrap_checksumsForFile_run (format path : string) (repo : Repository) :
  wrap format (checksumsForFile path) repo
  = match fails repo (ChecksumsForFile path) with
    | Some msg => (inl (Wrapped format (External msg)), repo)
    | None => (inr (checksums repo path), repo ++ [ChecksumsForFile path])
    end.
Proof.
  unfold wrap, checksumsForFile. by destruct (fails repo _).
Qed.

(** One round of the loop adds the three paths of the architecture. *)
Lemma publish_architecture_dom (p : PublishedRepo) (lst : PackageList)
    (generatedFiles generatedFiles' : gmap string ChecksumInfo) (arch : string)
    (repo repo' : Repository) :
  publish_architecture p lst generatedFiles arch repo
  = (inr generatedFiles', repo') →
  dom generatedFiles'
  = dom generatedFiles ∪ list_to_set (generated_paths p [arch]).
Proof.
  unfold publish_architecture.
  repeat (rewrite bindIO_run;
          match goal with
          | |- context [match ?c repo with _ => _ end] =>
              destruct (c repo) as [[?|?] ?]; [done|]
          | |- context [match ?c ?r with _ => _ end] =>
              destruct (c r) as [[?|?] ?]; [done|]
          end).
  intros [= <- _]. rewrite !dom_insert_L.
  change (generated_paths p [arch])
    with [relativePath p arch; relativePath p arch +:+ ".gz";
          relativePath p arch +:+ ".bz2"].
  set_solver.
Qed.

Lemma generated_paths_cons (p : PublishedRepo) (arch : string)
    (archs : list string) :
  generated_paths p (arch :: archs)
  = generated_paths p [arch] ++ generated_paths p archs.
Proof. reflexivity. Qed.

Lemma publish_architectures_dom (p : PublishedRepo) (lst : PackageList)
    (archs : list string)
    (generatedFiles generatedFiles' : gmap string ChecksumInfo)
    (repo repo' : Repository) :
  publish_architectures p lst archs generatedFiles repo
  = (inr generatedFiles', repo') →
  dom generatedFiles'
  = dom generatedFiles ∪ list_to_set (generated_paths p archs).
Proof.
  revert generatedFiles repo.
  induction archs as [|arch archs IH]; intros generatedFiles repo;
    cbn [publish_architectures].
  - intros [= <- _]. change (generated_paths p []) with (@nil string).
    by rewrite list_to_set_nil, (right_id_L ∅ (∪)).
  - rewrite bindIO_run.
    destruct (publish_architecture p lst generatedFiles arch repo)
      as [[?|gf1] repo1] eqn:Hone; [done|].
    intros Hrest%IH. apply publish_architecture_dom in Hone.
    rewrite Hrest, Hone, (generated_paths_cons p arch archs).
    by rewrite list_to_set_app_L, (assoc_L (∪)).
Qed.

Lemma length_generated_paths (p : PublishedRepo) (archs : list string) :
  length (generated_paths p archs) = (3 * length archs)%nat.
Proof.
  induction archs as [|arch archs IH]; [done|].
  rewrite generated_paths_cons, length_app, IH. simpl. lia.
Qed.

(** With pairwise distinct paths there are three generated files for each
    architecture. *)
Lemma size_generatedFiles (p : PublishedRepo) (archs : list string)
    (generatedFiles : gmap string ChecksumInfo) :
  dom generatedFiles = list_to_set (generated_paths p archs) →
  NoDup (generated_paths p archs) →
  size generatedFiles = (3 * length archs)%nat.
Proof.
  intros Hdom Hnodup.
  rewrite <- size_dom, Hdom, size_list_to_set by done.
  apply length_generated_paths.
Qed.

Lemma lookup_append_field_eq (field text : string) (release : Stanza) :
  append_field field text release !! field
  = Some (default EmptyString (release !! field) +:+ text).
Proof. apply lookup_insert_eq. Qed.

Lemma lookup_append_field_ne (field other text : string) (release : Stanza) :
  field ≠ other →
  append_field field text release !! other = release !! other.
Proof. intros Hne. by apply lookup_insert_ne. Qed.

Lemma foldl_add_checksums_MD5 (entries : list (string * ChecksumInfo))
    (release : Stanza) (text : string) :
  release !! "MD5Sum" = Some text →
  foldl add_checksums release entries !! "MD5Sum"
  = Some (foldl String.append text
            ((λ entry, checksum_line (MD5 entry.2) (Size entry.2) entry.1)
               <$> entries)).
Proof.
  revert release text.
  induction entries as [|entry entries IH]; intros release text Hfield;
    [done|].
  simpl. apply IH. unfold add_checksums.
  rewrite !lookup_append_field_ne by done.
  by rewrite lookup_append_field_eq, Hfield.
Qed.

Lemma foldl_add_checksums_SHA1 (entries : list (string * ChecksumInfo))
    (release : Stanza) (text : string) :
  release !! "SHA1" = Some text →
  foldl add_checksums release entries !! "SHA1"
  = Some (foldl String.append text
            ((λ entry, checksum_line (SHA1 entry.2) (Size entry.2) entry.1)
               <$> entries)).
Proof.
  revert release text.
  induction entries as [|entry entries IH]; intros release text Hfield;
    [done|].
  simpl. apply IH. unfold add_checksums.
  rewrite lookup_append_field_ne by done.
  rewrite lookup_append_field_eq, lookup_append_field_ne by done.
  by rewrite Hfield.
Qed.

Lemma foldl_add_checksums_SHA256 (entries : list (string * ChecksumInfo))
    (release : Stanza) (text : string) :
  release !! "SHA256" = Some text →
  foldl add_checksums release entries !! "SHA256"
  = Some (foldl String.append text
            ((λ entry, checksum_line (SHA256 entry.2) (Size entry.2) entry.1)
               <$> entries)).
Proof.
  revert release text.
  induction entries as [|entry entries IH]; intros release text Hfield;
    [done|].
  simpl. apply IH. unfold add_checksums.
  rewrite lookup_append_field_eq, !lookup_append_field_ne by done.
  by rewrite Hfield.
Qed.

(** The three checksum blocks of the release stanza: a line break, then one
    line for each generated file. *)
Lemma release_stanza_blocks (p : PublishedRepo) (archs : list string)
    (generatedFiles : gmap string ChecksumInfo) :
  release_stanza p archs generatedFiles !! "MD5Sum"
  = Some (block_text (block_lines MD5 generatedFiles)) ∧
  release_stanza p archs generatedFiles !! "SHA1"
  = Some (block_text (block_lines SHA1 generatedFiles)) ∧
  release_stanza p archs generatedFiles !! "SHA256"
  = Some (block_text (block_lines SHA256 generatedFiles)).
Proof.
  unfold release_stanza, block_text, block_lines. split; [|split].
  - apply foldl_add_checksums_MD5. unfold release_header.
    by rewrite !lookup_insert_ne, lookup_insert_eq by done.
  - apply foldl_add_checksums_SHA1. unfold release_header.
    by rewrite lookup_insert_ne, lookup_insert_eq by done.
  - apply foldl_add_checksums_SHA256. unfold release_header.
    by rewrite lookup_insert_eq.
Qed.

Lemma length_block_lines (digest : ChecksumInfo → string)
    (generatedFiles : gmap string ChecksumInfo) :
  length (block_lines digest generatedFiles) = size generatedFiles.
Proof.
  unfold block_lines. by rewrite length_fmap, length_map_to_list.
Qed.

(** When writing and signing the Release file succeeds, the stanza was
    written to the Release file of the distribution. *)
Lemma write_release_ok (p : PublishedRepo) (release : Stanza)
    (repo repo' : Repository) (u : unit) :
  write_release p release repo = (inr u, repo') →
  WriteTo (filepath_Join [basePath p; "Release"]) release ∈ repo'.
Proof.
  unfold write_release.
  rewrite bindIO_run, wrap_call_run. destruct (fails _ _); [done|].
  rewrite bindIO_run, wrap_call_run. destruct (fails _ _); [done|].
  rewrite bindIO_run, wrap_call_run. destruct (fails _ _); [done|].
  rewrite bindIO_run. unfold call_ignoring_error at 1.
  rewrite bindIO_run, wrap_call_run. destruct (fails _ _); [done|].
  rewrite wrap_call_run. destruct (fails _ _); [done|].
  intros [= _ <-]. rewrite !elem_of_app, !list_elem_of_singleton. tauto.
Qed.

(** C7, as the code has it: after a successful [Publish] whose generated
    files have pairwise distinct relative paths (its architectures are then
    pairwise distinct too), the stanza written to the Release file has, in
    each of the blocks MD5Sum, SHA1 and SHA256, one line for each generated
    file, three times the number of architectures in all: the plain, the .gz
    and the .bz2 Packages file of each architecture. *)
Theorem Publish_release_checksum_entries (p : PublishedRepo)
    (collection : PackageCollection) (repo : Repository) :
  (Publish p collection repo).1.1 = None →
  let p' := (Publish p collection repo).1.2 in
  let archs := default [] (Architectures p') in
  NoDup (generated_paths p' archs) →
  ∃ (release : Stanza) (generatedFiles : gmap string ChecksumInfo),
    WriteTo (filepath_Join [basePath p'; "Release"]) release
      ∈ (Publish p collection repo).2 ∧
    dom generatedFiles = list_to_set (generated_paths p' archs) ∧
    release !! "MD5Sum" = Some (block_text (block_lines MD5 generatedFiles)) ∧
    release !! "SHA1" = Some (block_text (block_lines SHA1 generatedFiles)) ∧
    release !! "SHA256"
    = Some (block_text (block_lines SHA256 generatedFiles)) ∧
    length (block_lines MD5 generatedFiles) = (3 * length archs)%nat ∧
    length (block_lines SHA1 generatedFiles) = (3 * length archs)%nat ∧
    length (block_lines SHA256 generatedFiles) = (3 * length archs)%nat.
Proof.
  unfold Publish. rewrite load_packages_run.
  destruct (fails repo _) as [msg|]; [done|].
  destruct (fails (repo ++ _) _) as [msg|]; [done|].
  destruct (NewPackageListFromRefList _ _) as [cause|lst]; [done|].
  destruct (decide (Len lst = 0%nat)); [done|].
  cbv zeta. set (p' := infer_Architectures p lst).
  set (archs := default [] (Architectures p')).
  destruct (decide (length archs = 0%nat)); [done|].
  rewrite bindIO_run.
  destruct (publish_architectures p' lst archs ∅ _)
    as [[?|generatedFiles] repo2] eqn:Hloop; [done|].
  destruct (write_release p' _ repo2) as [[?|[]] repo3] eqn:Hrelease; [done|].
  simpl. intros _ Hnodup.
  apply publish_architectures_dom in Hloop.
  rewrite dom_empty_L, (left_id_L ∅ (∪)) in Hloop.
  apply write_release_ok in Hrelease.
  pose proof (release_stanza_blocks p' archs generatedFiles)
    as (HMD5 & HSHA1 & HSHA256).
  exists (release_stanza p' archs generatedFiles), generatedFiles.
  rewrite !length_block_lines, (size_generatedFiles p' archs) by done.
  done.
Qed.

End PublishFacts.

(** *** Publishing the sample snapshots *)

Lemma Publish_empty_repository_witness :
  let p := NewPublishedRepo "debian" "stable" "main" None empty_snapshot in
  let out := @Publish sample_collaborators p sample_collection [] in
  (NewPackageListFromRefList (RefList (snapshot p)) sample_collection = inr ∅ ∧
   Len (∅ : PackageList) = 0%nat) ∧
  (out.1.1 ≠ None ∧
   (∀ path, CreateFile path ∈ out.2 → CreateFile path ∈ ([] : Repository)) ∧
   (@directories_created sample_collaborators p [] →
    out.1.1 = Some (Errorf "repository is empty, can't publish") ∧
    out.2 = [] ++ @first_directories sample_collaborators p)).
Proof.
  intros p out.
  assert (Hload : NewPackageListFromRefList (RefList (snapshot p))
                    sample_collection = inr ∅) by reflexivity.
  assert (Hlen : Len (∅ : PackageList) = 0%nat) by reflexivity.
  split; [done|].
  exact (@Publish_empty_repository sample_collaborators p sample_collection
           [] ∅ Hload Hlen).
Defined.

(** With the architectures left out, they are taken from the package
    list. *)
Example Publish_infers_architectures :
  let p := NewPublishedRepo "debian" "stable" "main" None sample_snapshot in
  let out := @Publish sample_collaborators p sample_collection [] in
  out.1.1 = None ∧ Architectures out.1.2 = Some ["amd64"; "all"].
Proof. by_evaluation. Qed.

Lemma Publish_architectures_witness :
  let p := NewPublishedRepo "debian" "stable" "main" (Some []) sample_snapshot in
  let out := @Publish sample_collaborators p sample_collection [] in
  (@directories_created sample_collaborators p [] ∧
   NewPackageListFromRefList (RefList (snapshot p)) sample_collection
   = inr sample_list ∧
   Len sample_list ≠ 0%nat) ∧
  (Architectures out.1.2 = Some [] ∧
   (Architectures p = None →
    NoDup ([] : list string) ∧
    ∀ arch, arch ∈ ([] : list string) ↔
            ∃ k pkg, sample_list !! k = Some pkg ∧ Architecture pkg = arch) ∧
   (([] : list string) = [] →
    out.1.1
    = Some (Errorf "unable to figure out list of architectures, please supply explicit list") ∧
    out.2 = [] ++ @first_directories sample_collaborators p)).
Proof.
  intros p out.
  assert (Hdirs : @directories_created sample_collaborators p [])
    by (split; reflexivity).
  assert (Hload : NewPackageListFromRefList (RefList (snapshot p))
                    sample_collection = inr sample_list) by by_evaluation.
  assert (Hlen : Len sample_list ≠ 0%nat) by by_evaluation.
  split; [done|].
  exact (@Publish_architectures sample_collaborators p sample_collection []
           sample_list Hdirs Hload Hlen).
Defined.

Lemma Publish_early_error_after_directories_witness :
  let p := NewPublishedRepo "debian" "stable" "main" None empty_snapshot in
  let out := @Publish sample_collaborators p sample_collection [] in
  let err := Errorf "repository is empty, can't publish" in
  (out.1.1 = Some err ∧ early_error err) ∧
  (out.2 = [] ++ @first_directories sample_collaborators p ∧
   MkDir "debian/pool" ∈ out.2 ∧
   MkDir "debian/dists/stable" ∈ out.2 ∧
   out.2 ≠ []).
Proof.
  intros p out err.
  assert (Herr : out.1.1 = Some err) by reflexivity.
  assert (Hearly : early_error err) by by left.
  split; [done|].
  exact (@Publish_early_error_after_directories sample_collaborators p
           sample_collection [] err Herr Hearly).
Defined.

(** The error of an unresolved reference is reported after the two
    directories are created as well. *)
Example Publish_unresolved_reference :
  let p := NewPublishedRepo "debian" "stable" "main" None
             (mkSnapshot "bad" ["Pamd64 missing 1.0"]) in
  @Publish sample_collaborators p sample_collection []
  = (Some (Wrapped "unable to load packages: %s"
             (Unresolved "Pamd64 missing 1.0")),
     p, [MkDir "debian/pool"; MkDir "debian/dists/stable"]).
Proof. by_evaluation. Qed.

Lemma Publish_release_checksum_entries_witness :
  let p := NewPublishedRepo "debian" "stable" "main" (Some ["amd64"; "i386"])
             sample_snapshot in
  let out := @Publish sample_collaborators p sample_collection [] in
  let archs := default [] (Architectures out.1.2) in
  (out.1.1 = None ∧
   NoDup (@generated_paths sample_collaborators out.1.2 archs)) ∧
  ∃ (release : Stanza) (generatedFiles : gmap string ChecksumInfo),
    WriteTo (@filepath_Join sample_collaborators
               [@basePath sample_collaborators out.1.2; "Release"]) release
      ∈ out.2 ∧
    dom generatedFiles
    = list_to_set (@generated_paths sample_collaborators out.1.2 archs) ∧
    release !! "MD5Sum" = Some (block_text (block_lines MD5 generatedFiles)) ∧
    release !! "SHA1" = Some (block_text (block_lines SHA1 generatedFiles)) ∧
    release !! "SHA256"
    = Some (block_text (block_lines SHA256 generatedFiles)) ∧
    length (block_lines MD5 generatedFiles) = (3 * length archs)%nat ∧
    length (block_lines SHA1 generatedFiles) = (3 * length archs)%nat ∧
    length (block_lines SHA256 generatedFiles) = (3 * length archs)%nat.
Proof.
  intros p out archs.
  assert (Hok : out.1.1 = None) by by_evaluation.
  assert (Hnodup : NoDup (@generated_paths sample_collaborators out.1.2 archs)).
  { by_evaluation. }
  split; [exact (conj Hok Hnodup)|].
  exact (@Publish_release_checksum_entries sample_collaborators p
           sample_collection [] Hok Hnodup).
Defined.

(** C7 as stated fails: when an architecture is supplied twice, [Publish]
    succeeds and works on both, but the second round records its three files
    under the paths of the first, so each block of the Release file has three
    lines and not six. *)
Lemma Publish_duplicate_architecture_three_entries :
  let p := NewPublishedRepo "debian" "stable" "main" (Some ["amd64"; "amd64"])
             sample_snapshot in
  let out := @Publish sample_collaborators p sample_collection [] in
  let archs := default [] (Architectures out.1.2) in
  out.1.1 = None ∧ length archs = 2%nat ∧
  ∃ (release : Stanza) (generatedFiles : gmap string ChecksumInfo),
    WriteTo "debian/dists/stable/Release" release ∈ out.2 ∧
    release !! "MD5Sum" = Some (block_text (block_lines MD5 generatedFiles)) ∧
    release !! "SHA1" = Some (block_text (block_lines SHA1 generatedFiles)) ∧
    release !! "SHA256"
    = Some (block_text (block_lines SHA256 generatedFiles)) ∧
    length (block_lines MD5 generatedFiles) = 3%nat ∧
    length (block_lines SHA1 generatedFiles) = 3%nat ∧
    length (block_lines SHA256 generatedFiles) = 3%nat ∧
    3%nat ≠ (3 * length archs)%nat.
Proof.
  intros p out archs.
  set (generatedFiles :=
         match @publish_architectures sample_collaborators p sample_list
                 ["amd64"; "amd64"] ∅
                 [MkDir "debian/pool"; MkDir "debian/dists/stable"] with
         | (inr files, _) => files
         | (inl _, _) => ∅
         end).
  split; [by_evaluation|]. split; [by_evaluation|].
  exists (@release_stanza sample_collaborators p ["amd64"; "amd64"]
            generatedFiles), generatedFiles.
  subst p out archs generatedFiles. by_evaluation.
Qed.

(* ################################################################# *)
(** * Further properties of the queries *)

Lemma scan_from_ext (m1 m2 : Package → result bool) (pkgs : list Package)
    (acc : PackageList) :
  (∀ pkg, m1 pkg = m2 pkg) → scan_from m1 pkgs acc = scan_from m2 pkgs acc.
Proof.
  intros Hext. revert acc. induction pkgs as [|pkg pkgs IH]; intros acc;
    [done|].
  simpl. rewrite Hext. destruct (m2 pkg) as [b|msg]; [|done]. apply IH.
Qed.

Lemma Scan_ext (m1 m2 : Package → result bool) (lst : PackageList) :
  (∀ pkg, m1 pkg = m2 pkg) → Scan lst m1 = Scan lst m2.
Proof. intros Hext. by apply scan_from_ext. Qed.

Lemma Scan_empty (matches : Package → result bool) :
  Scan NewPackageList matches = Ok NewPackageList.
Proof.
  unfold Scan, packages, NewPackageList. by rewrite map_to_list_empty.
Qed.

Section QueryExtras.

Context {ops : PackageOps}.

(** X1: on a list keyed by the composite keys of its packages, every
    package a query returns is a package of the list under the same key, and
    the returned list is keyed in the same way. *)
Theorem Query_returns_packages_of_list (q : PackageQuery)
    (lst R : PackageList) :
  keyed lst → Query q lst = Ok R → R ⊆ lst ∧ keyed R.
Proof.
  intros Hkeyed HR. apply Query_sound in HR as [Hsub _]; [|done].
  split; [done|]. by eapply keyed_subseteq.
Qed.

(** X2: on the empty list every query returns the empty list; no [Field]
    node is evaluated, so not even the regexp relation panics. *)
Theorem Query_empty_list (q : PackageQuery) :
  Query q NewPackageList = Ok NewPackageList.
Proof.
  induction q as [L IHL R IHR|L IHL R IHR|Q IHQ|field rel value|n v a|dep];
    simpl.
  - destruct (Fast L && Fast R); [|apply Scan_empty].
    rewrite IHL, IHR. simpl. unfold Append, packages, NewPackageList.
    by rewrite map_to_list_empty.
  - destruct (Fast L || Fast R); simpl; [|apply Scan_empty].
    destruct (Fast L); [rewrite IHL|rewrite IHR]; apply Scan_empty.
  - apply Scan_empty.
  - apply Scan_empty.
  - by unfold NewPackageList; rewrite lookup_empty.
  - unfold Search, packages, NewPackageList. by rewrite map_to_list_empty.
Qed.


Lemma go_not_and (x y : result bool) :
  go_not (go_and x y) = go_or (go_not x) (go_not y).
Proof. by destruct x as [[]|]. Qed.

Lemma go_not_or (x y : result bool) :
  go_not (go_or x y) = go_and (go_not x) (go_not y).
Proof. by destruct x as [[]|]. Qed.

Lemma go_not_not (x : result bool) : go_not (go_not x) = x.
Proof. by destruct x as [[]|]. Qed.

(** X4: De Morgan's laws hold for the queries as they are evaluated, panics
    and short-circuit evaluation included: negating a conjunction matches
    and returns what the disjunction of the negations does, and dually. *)
Theorem Query_De_Morgan (A B : PackageQuery) (pkg : Package)
    (lst : PackageList) :
  Matches (NotQuery (AndQuery A B)) pkg
  = Matches (OrQuery (NotQuery A) (NotQuery B)) pkg ∧
  Matches (NotQuery (OrQuery A B)) pkg
  = Matches (AndQuery (NotQuery A) (NotQuery B)) pkg ∧
  Query (NotQuery (AndQuery A B)) lst
  = Query (OrQuery (NotQuery A) (NotQuery B)) lst ∧
  Query (NotQuery (OrQuery A B)) lst
  = Query (AndQuery (NotQuery A) (NotQuery B)) lst.
Proof.
  split; [apply go_not_and|]. split; [apply go_not_or|]. split.
  - apply Scan_ext. intros pkg'. apply go_not_and.
  - apply Scan_ext. intros pkg'. apply go_not_or.
Qed.

(** X5: a double negation matches what the query under it matches, but it
    is never fast: its [Query] is a scan of the whole list even when the
    query under it is answered from the index. *)
Theorem Query_double_negation (Q : PackageQuery) (pkg : Package)
    (lst : PackageList) :
  Matches (NotQuery (NotQuery Q)) pkg = Matches Q pkg ∧
  Fast (NotQuery (NotQuery Q)) = false ∧
  Query (NotQuery (NotQuery Q)) lst = brute_force Q lst.
Proof.
  split; [apply go_not_not|]. split; [done|].
  apply Scan_ext. intros pkg'. apply go_not_not.
Qed.

(** A query without unimplemented relations returns the packages of the
    list that it matches. *)
Lemma Query_implemented_filter (q : PackageQuery) (lst : PackageList) :
  keyed lst → implemented q →
  Query q lst = Ok (filter (λ kp, Matches q kp.2 = Ok true) lst).
Proof.
  intros Hkeyed Himpl.
  destruct (Query_implemented q lst Hkeyed Himpl) as [R HR]. rewrite HR.
  f_equal. apply Query_sound in HR as [Hsub Hin]; [|done].
  apply map_eq. intros k. destruct (R !! k) as [pkg|] eqn:HRk.
  - symmetry. apply map_lookup_filter_Some.
    pose proof (lookup_weaken _ _ _ _ HRk Hsub) as Hk. split; [done|].
    destruct (Matches_implemented q pkg Himpl) as [b Hb]. simpl.
    rewrite Hb. f_equal. by apply (Hin k pkg b Hk Hb).
  - symmetry. apply map_lookup_filter_None. right. intros pkg Hk Hm.
    simpl in Hm.
    assert (R !! k = Some pkg) by by apply (Hin k pkg true Hk Hm).
    congruence.
Qed.

(** X6: on queries without unimplemented relations, [And] and [Or] return
    the same packages whichever way round their operands are, although
    [And] runs the indexed query of its left operand when both are fast. *)
Theorem Query_commutative (A B : PackageQuery) (lst : PackageList) :
  keyed lst → implemented A → implemented B →
  Query (AndQuery A B) lst = Query (AndQuery B A) lst ∧
  Query (OrQuery A B) lst = Query (OrQuery B A) lst.
Proof.
  intros Hkeyed HA HB.
  rewrite !Query_implemented_filter by done.
  split; f_equal; apply map_filter_ext; intros k pkg _; simpl;
    destruct (Matches_implemented A pkg HA) as [a ->];
    destruct (Matches_implemented B pkg HB) as [b ->];
    by destruct a, b.
Qed.

(** X7: the union the fast path of [Or] builds is duplicate-safe: a fast
    query or-ed with itself returns what the query returns, or panics as it
    does. *)
Theorem Query_or_idempotent (A : PackageQuery) (lst : PackageList) :
  keyed lst → Fast A = true →
  Query (OrQuery A A) lst = Query A lst.
Proof.
  intros Hkeyed Hfast. simpl. rewrite Hfast. simpl.
  destruct (Query A lst) as [R|msg] eqn:HR; [|done]. simpl. f_equal.
  apply Query_sound in HR as [Hsub _]; [|done].
  rewrite Append_union.
  - apply map_eq. intros k. rewrite lookup_union.
    by destruct (R !! k).
  - eapply own_keys_subseteq; [done|]. by apply keyed_own_keys.
Qed.

(** The relation switch on a field that is not special-cased. *)
Lemma FieldMatches_raw (field value : string) (rel : Z) (pkg : Package) :
  field ≠ "$Version" →
  field ≠ "$Architecture" ∨ rel ≠ VersionEqual →
  FieldMatches field rel value pkg
  = (if decide (rel = VersionDontCare)
     then Ok (negb (bool_decide (GetField pkg field = EmptyString)))
     else if decide (rel = VersionEqual)
     then Ok (bool_decide (GetField pkg field = value))
     else if decide (rel = VersionGreater)
     then Ok (String.ltb value (GetField pkg field))
     else if decide (rel = VersionGreaterOrEqual)
     then Ok (String.leb value (GetField pkg field))
     else if decide (rel = VersionLess)
     then Ok (String.ltb (GetField pkg field) value)
     else if decide (rel = VersionLessOrEqual)
     then Ok (String.leb (GetField pkg field) value)
     else if decide (rel = VersionPatternMatch)
     then Ok (match filepath_Match value (GetField pkg field) with
              | Some matched => matched
              | None => false
              end)
     else if decide (rel = VersionRegexp)
     then Panic "regexp matching not implemented yet"
     else Panic "unknown relation").
Proof.
  intros Hversion Hspecial. unfold FieldMatches.
  rewrite (decide_False (P := field = "$Version")) by done.
  destruct (decide (field = "$Architecture" ∧ rel = VersionEqual))
    as [[Hf Hr]|_]; [by destruct Hspecial|done].
Qed.

(** X8: on every field but [$Version] the raw string relations are those
    of one total order: greater is the negation of less-or-equal and less
    the negation of greater-or-equal; and on every field but [$Version] and
    [$Architecture] equal is greater-or-equal together with
    less-or-equal. *)
Theorem FieldQuery_string_order (field value : string) (pkg : Package) :
  field ≠ "$Version" →
  Matches (FieldQuery field VersionGreater value) pkg
  = go_not (Matches (FieldQuery field VersionLessOrEqual value) pkg) ∧
  Matches (FieldQuery field VersionLess value) pkg
  = go_not (Matches (FieldQuery field VersionGreaterOrEqual value) pkg) ∧
  (field ≠ "$Architecture" →
   Matches (FieldQuery field VersionEqual value) pkg
   = go_and (Matches (FieldQuery field VersionGreaterOrEqual value) pkg)
            (Matches (FieldQuery field VersionLessOrEqual value) pkg)).
Proof.
  intros Hversion. simpl.
  assert (Hlt : ∀ s1 s2, String.ltb s1 s2 = negb (String.leb s2 s1)).
  { intros s1 s2. unfold String.ltb, String.leb.
    rewrite (String.compare_antisym s1 s2).
    by destruct (String.compare s2 s1). }
  split; [|split].
  - rewrite !FieldMatches_raw by (done || by right). simpl.
    f_equal. apply Hlt.
  - rewrite !FieldMatches_raw by (done || by right). simpl.
    f_equal. apply Hlt.
  - intros Harch. rewrite !FieldMatches_raw by (done || by left). simpl.
    unfold String.leb.
    assert (Hrefl : ∀ s, String.compare s s = Eq).
    { intros s. pose proof (String.compare_antisym s s) as Hs.
      by destruct (String.compare s s). }
    rewrite (String.compare_antisym (GetField pkg field) value).
    destruct (String.compare value (GetField pkg field)) eqn:Hcmp; simpl.
    + apply String.compare_eq_iff in Hcmp.
      by rewrite bool_decide_eq_true_2.
    + rewrite bool_decide_eq_false_2; [done|].
      intros Heq. rewrite Heq, Hrefl in Hcmp. done.
    + rewrite bool_decide_eq_false_2; [done|].
      intros Heq. rewrite Heq, Hrefl in Hcmp. done.
Qed.

End QueryExtras.

(* ################################################################# *)
(** * Further properties of publishing *)

Lemma bindIO_inr {A B} (c : IO A) (f : A → IO B) (repo repo' : Repository)
    (b : B) :
  (c ≫= f) repo = (inr b, repo') →
  ∃ a repo1, c repo = (inr a, repo1) ∧ f a repo1 = (inr b, repo').
Proof.
  rewrite bindIO_run. destruct (c repo) as [[err|a] repo1]; [done|].
  intros Hf. by exists a, repo1.
Qed.

Lemma wrap_inr {A} (format : string) (c : IO A) (repo repo' : Repository)
    (a : A) :
  wrap format c repo = (inr a, repo') → c repo = (inr a, repo').
Proof. unfold wrap. by destruct (c repo) as [[err|a'] repo1]. Qed.

Section PublishExtras.

Context {world : Collaborators}.

Lemma call_inr (c : Call) (repo repo' : Repository) (u : unit) :
  call c repo = (inr u, repo') → repo' = repo ++ [c].
Proof. unfold call. destruct (fails repo c); [done|]. by intros [= <-]. Qed.

Lemma checksumsForFile_inr (path : string) (repo repo' : Repository)
    (info : ChecksumInfo) :
  checksumsForFile path repo = (inr info, repo') →
  repo' = repo ++ [ChecksumsForFile path].
Proof.
  unfold checksumsForFile. destruct (fails repo _); [done|].
  by intros [= _ <-].
Qed.

Lemma write_package_inr (p : PublishedRepo) (file arch : string)
    (pkg : Package) (repo repo' : Repository) (u : unit) :
  write_package p file arch pkg repo = (inr u, repo') →
  repo' = repo ++ package_calls p file arch pkg.
Proof.
  unfold write_package, package_calls.
  destruct (MatchesArchitecture pkg arch).
  - intros (? & repo1 & ->%call_inr & Hrest)%bindIO_inr.
    apply bindIO_inr in Hrest as (? & repo2 & ->%call_inr & ->%call_inr).
    by rewrite <- !(assoc_L (++)).
  - intros [= <-]. by rewrite (right_id_L [] (++)).
Qed.

Lemma ForEach_from_inr (pkgs : list Package) (handler : Package → IO unit)
    (calls : Package → list Call) (repo repo' : Repository) (u : unit) :
  (∀ pkg r r' u', handler pkg r = (inr u', r') → r' = r ++ calls pkg) →
  ForEach_from pkgs handler repo = (inr u, repo') →
  repo' = repo ++ (pkg ← pkgs; calls pkg).
Proof.
  intros Hhandler. revert repo.
  induction pkgs as [|pkg pkgs IH]; intros repo; simpl.
  - intros [= <-]. by rewrite (right_id_L [] (++)).
  - intros (? & repo1 & ->%Hhandler & ->%IH)%bindIO_inr.
    by rewrite <- (assoc_L (++)).
Qed.

Lemma publish_architecture_inr (p : PublishedRepo) (lst : PackageList)
    (generatedFiles generatedFiles' : gmap string ChecksumInfo) (arch : string)
    (repo repo' : Repository) :
  publish_architecture p lst generatedFiles arch repo
  = (inr generatedFiles', repo') →
  repo' = repo ++ architecture_calls p lst arch.
Proof.
  unfold publish_architecture, architecture_calls.
  intros (? & r1 & ->%call_inr & Hrest)%bindIO_inr.
  apply bindIO_inr in Hrest as (? & r2 & ->%wrap_inr%call_inr & Hrest).
  apply bindIO_inr in Hrest as (? & r3 & Hloop%wrap_inr & Hrest).
  apply (ForEach_from_inr _ _
           (package_calls p (filepath_Join [basePath p; relativePath p arch])
                          arch)) in Hloop;
    [|apply write_package_inr].
  subst r3.
  apply bindIO_inr in Hrest as (? & r4 & ->%wrap_inr%call_inr & Hrest).
  apply bindIO_inr in Hrest as (? & r5 & ->%wrap_inr%call_inr & Hrest).
  apply bindIO_inr in Hrest as (? & r6 & [= _ <-] & Hrest).
  apply bindIO_inr in Hrest
    as (? & r7 & ->%wrap_inr%checksumsForFile_inr & Hrest).
  apply bindIO_inr in Hrest
    as (? & r8 & ->%wrap_inr%checksumsForFile_inr & Hrest).
  apply bindIO_inr in Hrest
    as (? & r9 & ->%wrap_inr%checksumsForFile_inr & [= _ <-]).
  by rewrite <- !(assoc_L (++)).
Qed.

Lemma publish_architectures_inr (p : PublishedRepo) (lst : PackageList)
    (archs : list string)
    (generatedFiles generatedFiles' : gmap string ChecksumInfo)
    (repo repo' : Repository) :
  publish_architectures p lst archs generatedFiles repo
  = (inr generatedFiles', repo') →
  repo' = repo ++ (arch ← archs; architecture_calls p lst arch).
Proof.
  revert generatedFiles repo.
  induction archs as [|arch archs IH]; intros generatedFiles repo;
    cbn [publish_architectures].
  - intros [= _ <-]. symmetry. apply app_nil_r.
  - intros (gf1 & repo1 & ->%publish_architecture_inr & ->%IH)%bindIO_inr.
    by rewrite <- (assoc_L (++)).
Qed.

Lemma write_release_inr (p : PublishedRepo) (release : Stanza)
    (repo repo' : Repository) (u : unit) :
  write_release p release repo = (inr u, repo') →
  repo' = repo ++ release_calls p release.
Proof.
  unfold write_release, release_calls.
  intros (? & r1 & ->%wrap_inr%call_inr & Hrest)%bindIO_inr.
  apply bindIO_inr in Hrest as (? & r2 & ->%wrap_inr%call_inr & Hrest).
  apply bindIO_inr in Hrest as (? & r3 & ->%wrap_inr%call_inr & Hrest).
  apply bindIO_inr in Hrest as (? & r4 & [= _ <-] & Hrest).
  apply bindIO_inr in Hrest
    as (? & r5 & ->%wrap_inr%call_inr & ->%wrap_inr%call_inr).
  by rewrite <- !(assoc_L (++)).
Qed.

(** A successful [Publish], step by step. *)
Lemma Publish_inr (p : PublishedRepo) (collection : PackageCollection)
    (repo : Repository) :
  (Publish p collection repo).1.1 = None →
  ∃ (lst : PackageList) (generatedFiles : gmap string ChecksumInfo),
    NewPackageListFromRefList (RefList (snapshot p)) collection = inr lst ∧
    Len lst ≠ 0%nat ∧
    (Publish p collection repo).1.2 = infer_Architectures p lst ∧
    default [] (Architectures (infer_Architectures p lst)) ≠ [] ∧
    (Publish p collection repo).2
    = repo ++ first_directories p
      ++ (arch ← default [] (Architectures (infer_Architectures p lst));
          architecture_calls (infer_Architectures p lst) lst arch)
      ++ release_calls (infer_Architectures p lst)
           (release_stanza (infer_Architectures p lst)
              (default [] (Architectures (infer_Architectures p lst)))
              generatedFiles).
Proof.
  unfold Publish. rewrite load_packages_run.
  destruct (fails repo _) as [msg|]; [done|].
  destruct (fails (repo ++ _) _) as [msg|]; [done|].
  destruct (NewPackageListFromRefList _ _) as [cause|lst]; [done|].
  destruct (decide (Len lst = 0%nat)); [done|].
  cbv zeta. set (p' := infer_Architectures p lst).
  set (archs := default [] (Architectures p')).
  destruct (decide (length archs = 0%nat)) as [|Hlen]; [done|].
  rewrite bindIO_run.
  destruct (publish_architectures p' lst archs ∅ _)
    as [[?|generatedFiles] repo2] eqn:Hloop; [done|].
  destruct (write_release p' _ repo2) as [[?|[]] repo3] eqn:Hrelease; [done|].
  simpl. intros _. exists lst, generatedFiles.
  apply publish_architectures_inr in Hloop as ->.
  apply write_release_inr in Hrelease as ->.
  split; [done|]. split; [done|]. split; [done|]. split.
  - intros Harchs. apply Hlen. fold p' archs in Harchs. by rewrite Harchs.
  - by rewrite <- !(assoc_L (++)).
Qed.

Lemma CreateFile_package_calls (p : PublishedRepo) (file arch path : string)
    (pkgs : list Package) :
  CreateFile path ∉ (pkg ← pkgs; package_calls p file arch pkg).
Proof.
  intros (pkg & Hin & _)%list_elem_of_bind. unfold package_calls in Hin.
  destruct (MatchesArchitecture pkg arch); [|by apply elem_of_nil in Hin].
  rewrite !elem_of_cons in Hin. by destruct Hin as [?|[?|[?|?%elem_of_nil]]].
Qed.

Lemma CreateFile_architecture_calls (p : PublishedRepo) (lst : PackageList)
    (arch path : string) :
  CreateFile path ∈ architecture_calls p lst arch ↔
  path = filepath_Join [basePath p; relativePath p arch].
Proof.
  unfold architecture_calls. rewrite !elem_of_app, !elem_of_cons. split.
  - intros [[?|[[= ->]|?%elem_of_nil]]|[?%CreateFile_package_calls|Hin]];
      try done.
    by destruct Hin as [?|[?|[?|[?|[?|[?|?%elem_of_nil]]]]]].
  - intros ->. left. right. by left.
Qed.

(** X9: a successful [Publish] has made, after the calls made before, the
    two directory creations, then for each architecture in turn the calls of
    its Packages file (its directory, the file, the packages that match the
    architecture in list order, flush, compression, close and the three
    checksums), and last the calls that write and sign the Release file;
    nothing else and in this order. *)
Theorem Publish_success_calls (p : PublishedRepo)
    (collection : PackageCollection) (repo : Repository) :
  (Publish p collection repo).1.1 = None →
  ∃ (lst : PackageList) (generatedFiles : gmap string ChecksumInfo),
    NewPackageListFromRefList (RefList (snapshot p)) collection = inr lst ∧
    let p' := (Publish p collection repo).1.2 in
    let archs := default [] (Architectures p') in
    (Publish p collection repo).2
    = repo ++ first_directories p
      ++ (arch ← archs; architecture_calls p' lst arch)
      ++ release_calls p' (release_stanza p' archs generatedFiles).
Proof.
  intros (lst & generatedFiles & Hload & _ & Hp' & _ & Hcalls)%Publish_inr.
  exists lst, generatedFiles. split; [done|]. cbv zeta. by rewrite Hp'.
Qed.

(** X10: the files a successful [Publish] creates are the Packages file of
    each architecture of the published repository and the Release file of
    the distribution, and no other. *)
Theorem Publish_success_created_files (p : PublishedRepo)
    (collection : PackageCollection) (repo : Repository) :
  (Publish p collection repo).1.1 = None →
  let p' := (Publish p collection repo).1.2 in
  ∃ calls,
    (Publish p collection repo).2 = repo ++ calls ∧
    ∀ path,
      CreateFile path ∈ calls ↔
      path = filepath_Join [basePath p'; "Release"] ∨
      ∃ arch, arch ∈ default [] (Architectures p') ∧
              path = filepath_Join [basePath p'; relativePath p' arch].
Proof.
  intros (lst & generatedFiles & _ & _ & Hp' & _ & Hcalls)%Publish_inr.
  cbv zeta. rewrite Hp'. eexists. split; [exact Hcalls|].
  intros path. rewrite !elem_of_app, list_elem_of_bind. split.
  - intros [Hin|[(arch & Hin & Harch)|Hin]].
    + unfold first_directories in Hin. rewrite !elem_of_cons in Hin.
      by destruct Hin as [?|[?|?%elem_of_nil]].
    + right. exists arch. split; [done|].
      by apply CreateFile_architecture_calls in Hin.
    + left. unfold release_calls in Hin. rewrite !elem_of_cons in Hin.
      destruct Hin as [[= ->]|[?|[?|[?|[?|[?|?%elem_of_nil]]]]]]; done.
  - intros [->|(arch & Harch & ->)].
    + right. right. unfold release_calls. by left.
    + right. left. exists arch. split; [|done].
      by apply CreateFile_architecture_calls.
Qed.

Lemma LinkFromPool_architecture_calls (p : PublishedRepo) (lst : PackageList)
    (arch prefix component : string) (pkg : Package) :
  LinkFromPool pkg prefix component ∈ architecture_calls p lst arch ↔
  prefix = Prefix p ∧ component = Component p ∧
  (∃ k, lst !! k = Some pkg) ∧ MatchesArchitecture pkg arch = true.
Proof.
  unfold architecture_calls.
  rewrite !elem_of_app, list_elem_of_bind. split.
  - intros [Hin|[(pkg' & Hin & Hpkg)|Hin]].
    + rewrite !elem_of_cons in Hin. by destruct Hin as [?|[?|?%elem_of_nil]].
    + unfold package_calls in Hin.
      destruct (MatchesArchitecture pkg' arch) eqn:Hm;
        [|by apply elem_of_nil in Hin].
      rewrite !elem_of_cons in Hin.
      destruct Hin as [[= -> -> ->]|[?|[?|?%elem_of_nil]]]; try done.
      by apply elem_of_packages in Hpkg.
    + rewrite !elem_of_cons in Hin.
      by destruct Hin as [?|[?|[?|[?|[?|[?|?%elem_of_nil]]]]]].
  - intros (-> & -> & Hpkg%elem_of_packages & Hm). right. left.
    exists pkg. split; [|done]. unfold package_calls. rewrite Hm. by left.
Qed.

(** X11: the packages a successful [Publish] links from the pool are those
    packages of the materialized list whose architecture matches one of the
    architectures of the published repository, and they are linked with its
    prefix and component. *)
Theorem Publish_success_linked_packages (p : PublishedRepo)
    (collection : PackageCollection) (repo : Repository) :
  (Publish p collection repo).1.1 = None →
  let p' := (Publish p collection repo).1.2 in
  ∃ (lst : PackageList) (calls : list Call),
    NewPackageListFromRefList (RefList (snapshot p)) collection = inr lst ∧
    (Publish p collection repo).2 = repo ++ calls ∧
    ∀ pkg prefix component,
      LinkFromPool pkg prefix component ∈ calls ↔
      prefix = Prefix p ∧ component = Component p ∧
      (∃ k, lst !! k = Some pkg) ∧
      ∃ arch, arch ∈ default [] (Architectures p') ∧
              MatchesArchitecture pkg arch = true.
Proof.
  intros (lst & generatedFiles & Hload & _ & Hp' & _ & Hcalls)%Publish_inr.
  cbv zeta. rewrite Hp'. exists lst. eexists.
  split; [done|]. split; [exact Hcalls|].
  assert (Hprefix : Prefix (infer_Architectures p lst) = Prefix p)
    by (unfold infer_Architectures; by destruct (Architectures p)).
  assert (Hcomponent : Component (infer_Architectures p lst) = Component p)
    by (unfold infer_Architectures; by destruct (Architectures p)).
  intros pkg prefix component.
  rewrite !elem_of_app, list_elem_of_bind. split.
  - intros [Hin|[(arch & Hin & Harch)|Hin]].
    + unfold first_directories in Hin. rewrite !elem_of_cons in Hin.
      by destruct Hin as [?|[?|?%elem_of_nil]].
    + apply LinkFromPool_architecture_calls in Hin as (-> & -> & Hpkg & Hm).
      split; [done|]. split; [done|]. split; [done|]. by exists arch.
    + unfold release_calls in Hin. rewrite !elem_of_cons in Hin.
      by destruct Hin as [?|[?|[?|[?|[?|[?|?%elem_of_nil]]]]]].
  - intros (-> & -> & Hpkg & arch & Harch & Hm). right. left.
    exists arch. split; [|done].
    apply LinkFromPool_architecture_calls. by rewrite Hprefix, Hcomponent.
Qed.

Lemma raises_MkDir (path : string) : raises (call (MkDir path)) from_MkDir.
Proof.
  intros repo err repo'. unfold call.
  destruct (fails repo (MkDir path)) as [msg|] eqn:Hfails; [|done].
  intros [= <- <-] msg' [= <-]. by exists repo, path.
Qed.

Lemma raises_wrap_from_MkDir {A} (format : string) (c : IO A) :
  raises (wrap format c) from_MkDir.
Proof.
  eapply raises_weaken; [|apply raises_wrap].
  by intros err [cause ->] msg.
Qed.

Lemma raises_from_MkDir_publish_architectures (p : PublishedRepo)
    (lst : PackageList) (archs : list string)
    (generatedFiles : gmap string ChecksumInfo) :
  raises (publish_architectures p lst archs generatedFiles) from_MkDir.
Proof.
  revert generatedFiles. induction archs as [|arch archs IH];
    intros generatedFiles; cbn [publish_architectures].
  - apply raises_ret.
  - apply raises_bind; [|done]. unfold publish_architecture.
    repeat first
      [ apply raises_bind; [|intros ?]
      | apply raises_MkDir
      | apply raises_wrap_from_MkDir
      | apply raises_call_ignoring_error
      | apply raises_ret ].
Qed.

Lemma raises_from_MkDir_write_release (p : PublishedRepo) (release : Stanza) :
  raises (write_release p release) from_MkDir.
Proof.
  unfold write_release.
  repeat first
    [ apply raises_bind; [|intros ?]
    | apply raises_wrap_from_MkDir
    | apply raises_call_ignoring_error ].
Qed.

(** X12: the only errors [Publish] returns as the collaborator gave them,
    without the name of the failing step, are those of directory creation:
    when [Publish] returns such an error, a [MkDir] call has failed with
    it. *)
Theorem Publish_unwrapped_error_is_MkDir (p : PublishedRepo)
    (collection : PackageCollection) (repo : Repository) (msg : string) :
  (Publish p collection repo).1.1 = Some (External msg) →
  ∃ history path, fails history (MkDir path) = Some msg.
Proof.
  unfold Publish. rewrite load_packages_run.
  destruct (fails repo _) as [msg1|] eqn:Hpool.
  { intros [= <-]. eauto. }
  destruct (fails (repo ++ _) _) as [msg2|] eqn:Hbase.
  { intros [= <-]. eauto. }
  destruct (NewPackageListFromRefList _ _) as [cause|lst]; [done|].
  destruct (decide (Len lst = 0%nat)); [done|].
  destruct (decide (length _ = 0%nat)); [done|]. cbv zeta.
  destruct (_ ≫= _) as [[err|?] repo2] eqn:Hrun; [|done].
  intros [= ->].
  eapply (raises_bind _ _ from_MkDir); [| |exact Hrun|done].
  - apply raises_from_MkDir_publish_architectures.
  - intros generatedFiles. apply raises_from_MkDir_write_release.
Qed.

Lemma foldl_add_checksums_other (entries : list (string * ChecksumInfo))
    (release : Stanza) (field : string) :
  field ≠ "MD5Sum" → field ≠ "SHA1" → field ≠ "SHA256" →
  foldl add_checksums release entries !! field = release !! field.
Proof.
  intros HMD5 HSHA1 HSHA256. revert release.
  induction entries as [|entry entries IH]; intros release; [done|].
  simpl. rewrite IH. unfold add_checksums.
  by rewrite !lookup_append_field_ne.
Qed.

(** X13: the Release stanza a successful [Publish] writes carries, beside
    the checksum blocks, the origin and the label "prefix distribution", the
    distribution as codename, the formatted time, the component, the
    architectures joined by spaces and the fixed description; the checksum
    lines added afterwards leave these fields as they were set. *)
Theorem Publish_release_header (p : PublishedRepo)
    (collection : PackageCollection) (repo : Repository) :
  (Publish p collection repo).1.1 = None →
  let p' := (Publish p collection repo).1.2 in
  ∃ release : Stanza,
    WriteTo (filepath_Join [basePath p'; "Release"]) release
      ∈ (Publish p collection repo).2 ∧
    release !! "Origin" = Some (Prefix p +:+ " " +:+ Distribution p) ∧
    release !! "Label" = Some (Prefix p +:+ " " +:+ Distribution p) ∧
    release !! "Codename" = Some (Distribution p) ∧
    release !! "Date" = Some Now ∧
    release !! "Components" = Some (Component p) ∧
    release !! "Architectures"
    = Some (String.concat " " (default [] (Architectures p'))) ∧
    release !! "Description" = Some ("Generated by aptly" +:+ newline).
Proof.
  intros (lst & generatedFiles & _ & _ & Hp' & _ & Hcalls)%Publish_inr.
  cbv zeta. rewrite Hp', Hcalls.
  assert (Hsame : Prefix (infer_Architectures p lst) = Prefix p ∧
                  Distribution (infer_Architectures p lst) = Distribution p ∧
                  Component (infer_Architectures p lst) = Component p)
    by (unfold infer_Architectures; by destruct (Architectures p)).
  destruct Hsame as (Hprefix & Hdistribution & Hcomponent).
  eexists. split.
  { rewrite !elem_of_app. do 3 right. unfold release_calls.
    right. by left. }
  unfold release_stanza.
  rewrite !foldl_add_checksums_other by done.
  unfold release_header. rewrite Hprefix, Hdistribution, Hcomponent.
  repeat (split; [by rewrite !lookup_insert_ne, lookup_insert_eq by done|]).
  by rewrite !lookup_insert_ne, lookup_insert_eq by done.
Qed.

End PublishExtras.

(** *** Failing runs *)

Lemma stops_within_ret {A} (a : A) : stops_within (mret a : IO A) [].
Proof.
  intros repo res repo' [= <- <-]. exists []. split; [|done].
  by rewrite (right_id_L [] (++)).
Qed.

Lemma stops_within_bind {A B} (c : IO A) (f : A → IO B)
    (calls1 calls2 : list Call) :
  stops_within c calls1 → (∀ a, stops_within (f a) calls2) →
  stops_within (c ≫= f) (calls1 ++ calls2).
Proof.
  intros Hc Hf repo res repo'. rewrite bindIO_run.
  destruct (c repo) as [[err|a] repo1] eqn:Hrun.
  - intros [= <- <-].
    destruct (Hc _ _ _ Hrun) as (made & -> & Hprefix & _).
    exists made. split; [done|]. split; [|done].
    by apply prefix_app_r.
  - intros Hrest.
    destruct (Hc _ _ _ Hrun) as (made1 & -> & _ & Hall).
    pose proof (Hall a eq_refl) as ->.
    destruct (Hf a _ _ _ Hrest) as (made2 & -> & Hprefix & Hall2).
    exists (calls1 ++ made2). split; [by rewrite (assoc_L (++))|].
    split; [by apply prefix_app|].
    intros b Hb. by rewrite (Hall2 b Hb).
Qed.

Lemma stops_within_wrap {A} (format : string) (c : IO A) (calls : list Call) :
  stops_within c calls → stops_within (wrap format c) calls.
Proof.
  intros Hc repo res repo'. unfold wrap.
  destruct (c repo) as [[err|a] repo1] eqn:Hrun; intros [= <- <-];
    destruct (Hc _ _ _ Hrun) as (made & -> & Hprefix & Hall);
    exists made; (split; [done|]); (split; [done|]).
  - done.
  - intros a' [= <-]. by apply (Hall a).
Qed.

Section FailingRuns.

Context {world : Collaborators}.

Lemma stops_within_call (c : Call) : stops_within (call c) [c].
Proof.
  intros repo res repo'. unfold call. destruct (fails repo c).
  - intros [= <- <-]. exists []. split; [by rewrite (right_id_L [] (++))|].
    split; [apply prefix_nil|done].
  - intros [= <- <-]. by exists [c].
Qed.

Lemma stops_within_call_ignoring_error (c : Call) :
  stops_within (call_ignoring_error c) [c].
Proof. intros repo res repo' [= <- <-]. by exists [c]. Qed.

Lemma stops_within_checksumsForFile (path : string) :
  stops_within (checksumsForFile path) [ChecksumsForFile path].
Proof.
  intros repo res repo'. unfold checksumsForFile. destruct (fails repo _).
  - intros [= <- <-]. exists []. split; [by rewrite (right_id_L [] (++))|].
    split; [apply prefix_nil|done].
  - intros [= <- <-]. by eexists.
Qed.

Lemma stops_within_write_package (p : PublishedRepo) (file arch : string)
    (pkg : Package) :
  stops_within (write_package p file arch pkg) (package_calls p file arch pkg).
Proof.
  unfold write_package, package_calls.
  destruct (MatchesArchitecture pkg arch); [|apply stops_within_ret].
  apply (stops_within_bind _ _ [_] [_; _]); [apply stops_within_call|].
  intros _.
  apply (stops_within_bind _ _ [_] [_]); [apply stops_within_call|].
  intros _. apply stops_within_call.
Qed.

Lemma stops_within_ForEach_from (pkgs : list Package)
    (handler : Package → IO unit) (calls : Package → list Call) :
  (∀ pkg, stops_within (handler pkg) (calls pkg)) →
  stops_within (ForEach_from pkgs handler) (pkg ← pkgs; calls pkg).
Proof.
  intros Hhandler. induction pkgs as [|pkg pkgs IH].
  - apply stops_within_ret.
  - apply (stops_within_bind _ _ (calls pkg)); [apply Hhandler|done].
Qed.

Lemma stops_within_publish_architecture (p : PublishedRepo)
    (lst : PackageList) (generatedFiles : gmap string ChecksumInfo)
    (arch : string) :
  stops_within (publish_architecture p lst generatedFiles arch)
               (architecture_calls p lst arch).
Proof.
  unfold publish_architecture, architecture_calls.
  apply (stops_within_bind _ _ [_] (_ :: _)); [apply stops_within_call|].
  intros _.
  apply (stops_within_bind _ _ [_]);
    [apply stops_within_wrap, stops_within_call|].
  intros _.
  apply stops_within_bind;
    [apply stops_within_wrap, stops_within_ForEach_from;
     intros pkg; apply stops_within_write_package|].
  intros _.
  apply (stops_within_bind _ _ [_] (_ :: _));
    [apply stops_within_wrap, stops_within_call|].
  intros _.
  apply (stops_within_bind _ _ [_] (_ :: _));
    [apply stops_within_wrap, stops_within_call|].
  intros _.
  apply (stops_within_bind _ _ [_] (_ :: _));
    [apply stops_within_call_ignoring_error|].
  intros _.
  apply (stops_within_bind _ _ [_] (_ :: _));
    [apply stops_within_wrap, stops_within_checksumsForFile|].
  intros info1.
  apply (stops_within_bind _ _ [_] (_ :: _));
    [apply stops_within_wrap, stops_within_checksumsForFile|].
  intros info2.
  apply (stops_within_bind _ _ [_] []);
    [apply stops_within_wrap, stops_within_checksumsForFile|].
  intros info3. apply stops_within_ret.
Qed.

Lemma stops_within_publish_architectures (p : PublishedRepo)
    (lst : PackageList) (archs : list string)
    (generatedFiles : gmap string ChecksumInfo) :
  stops_within (publish_architectures p lst archs generatedFiles)
               (arch ← archs; architecture_calls p lst arch).
Proof.
  revert generatedFiles. induction archs as [|arch archs IH];
    intros generatedFiles.
  - apply stops_within_ret.
  - apply (stops_within_bind _ _ (architecture_calls p lst arch));
      [apply stops_within_publish_architecture|done].
Qed.

Lemma stops_within_write_release (p : PublishedRepo) (release : Stanza) :
  stops_within (write_release p release) (release_calls p release).
Proof.
  unfold write_release, release_calls.
  apply (stops_within_bind _ _ [_] (_ :: _));
    [apply stops_within_wrap, stops_within_call|].
  intros _.
  apply (stops_within_bind _ _ [_] (_ :: _));
    [apply stops_within_wrap, stops_within_call|].
  intros _.
  apply (stops_within_bind _ _ [_] (_ :: _));
    [apply stops_within_wrap, stops_within_call|].
  intros _.
  apply (stops_within_bind _ _ [_] (_ :: _));
    [apply stops_within_call_ignoring_error|].
  intros _.
  apply (stops_within_bind _ _ [_] [_]);
    [apply stops_within_wrap, stops_within_call|].
  intros _. apply stops_within_wrap, stops_within_call.
Qed.

(** X14: [Publish] is fail-fast and undoes nothing: whatever its outcome,
    the calls it has made are an initial segment of the calls of a
    successful run (the two directories, the architectures in turn, the
    Release file and its signatures); when the package list cannot be
    loaded they are at most the two directory creations. *)
Theorem Publish_calls_initial_segment (p : PublishedRepo)
    (collection : PackageCollection) (repo : Repository) :
  ∃ calls,
    (Publish p collection repo).2 = repo ++ calls ∧
    match NewPackageListFromRefList (RefList (snapshot p)) collection with
    | inl _ => calls `prefix_of` first_directories p
    | inr lst =>
        let p' := infer_Architectures p lst in
        ∃ release,
          calls `prefix_of`
            first_directories p
            ++ (arch ← default [] (Architectures p');
                architecture_calls p' lst arch)
            ++ release_calls p' release
    end.
Proof.
  unfold Publish. rewrite load_packages_run.
  destruct (fails repo _) as [msg|].
  { exists []. split; [by rewrite (right_id_L [] (++))|].
    destruct (NewPackageListFromRefList _ _); [apply prefix_nil|].
    exists ∅. apply prefix_nil. }
  destruct (fails (repo ++ _) _) as [msg|].
  { exists [MkDir (filepath_Join [Prefix p; "pool"])]. split; [done|].
    assert (Hone : [MkDir (filepath_Join [Prefix p; "pool"])]
                     `prefix_of` first_directories p)
      by by exists [MkDir (basePath p)].
    destruct (NewPackageListFromRefList _ _); [done|].
    exists ∅. by apply prefix_app_r. }
  destruct (NewPackageListFromRefList _ _) as [cause|lst].
  { by exists (first_directories p). }
  destruct (decide (Len lst = 0%nat)).
  { exists (first_directories p). split; [done|]. exists ∅.
    by apply prefix_app_r. }
  cbv zeta. set (p' := infer_Architectures p lst).
  set (archs := default [] (Architectures p')).
  destruct (decide (length archs = 0%nat)).
  { exists (first_directories p). split; [done|]. exists ∅.
    by apply prefix_app_r. }
  rewrite bindIO_run.
  destruct (publish_architectures p' lst archs ∅ _)
    as [[err|generatedFiles] repo2] eqn:Hloop.
  - destruct (stops_within_publish_architectures _ _ _ _ _ _ _ Hloop)
      as (made & -> & Hprefix & _).
    exists (first_directories p ++ made). cbv beta iota delta [fst snd].
    split; [by rewrite <- (assoc_L (++))|].
    exists ∅. by apply prefix_app, prefix_app_r.
  - destruct (stops_within_publish_architectures _ _ _ _ _ _ _ Hloop)
      as (made & -> & _ & Hall).
    pose proof (Hall _ eq_refl) as ->.
    destruct (write_release p' _ _) as [res repo3] eqn:Hrelease.
    destruct (stops_within_write_release _ _ _ _ _ Hrelease)
      as (made' & -> & Hprefix & _).
    exists (first_directories p ++ (arch ← archs; architecture_calls p' lst arch)
            ++ made').
    split.
    + destruct res as [?|[]]; cbv beta iota delta [fst snd];
        by rewrite <- !(assoc_L (++)).
    + exists (release_stanza p' archs generatedFiles).
      by apply prefix_app, prefix_app.
Qed.

Lemma raises_not_sign_call (c : Call) : raises (call c) not_sign_error.
Proof.
  eapply raises_weaken; [|apply raises_call]. by intros err [msg ->] cause.
Qed.

Lemma raises_not_sign_wrap {A} (format : string) (c : IO A) :
  format ≠ "unable to sign Release file: %s" →
  raises (wrap format c) not_sign_error.
Proof.
  intros Hformat. eapply raises_weaken; [|apply raises_wrap].
  intros err [cause ->] cause' [= ? _]. done.
Qed.

Lemma raises_not_sign_publish_architectures (p : PublishedRepo)
    (lst : PackageList) (archs : list string)
    (generatedFiles : gmap string ChecksumInfo) :
  raises (publish_architectures p lst archs generatedFiles) not_sign_error.
Proof.
  revert generatedFiles. induction archs as [|arch archs IH];
    intros generatedFiles; cbn [publish_architectures].
  - apply raises_ret.
  - apply raises_bind; [|done]. unfold publish_architecture.
    repeat first
      [ apply raises_bind; [|intros ?]
      | apply raises_not_sign_call
      | by apply raises_not_sign_wrap
      | apply raises_call_ignoring_error
      | apply raises_ret ].
Qed.

(** A failed signature finds the Release file written, flushed and
    closed. *)
Lemma write_release_sign_error (p : PublishedRepo) (release : Stanza)
    (repo repo' : Repository) (cause : error) :
  write_release p release repo
  = (inl (Wrapped "unable to sign Release file: %s" cause), repo') →
  ∃ signed,
    repo' = repo ++ take 4 (release_calls p release) ++ signed ∧
    (signed = [] ∨
     signed = [DetachedSign
                 (FileName (filepath_Join [basePath p; "Release"]))
                 (FileName (filepath_Join [basePath p; "Release"]) +:+ ".gpg")]).
Proof.
  unfold write_release, release_calls.
  rewrite bindIO_run, wrap_call_run. destruct (fails _ _); [done|].
  rewrite bindIO_run, wrap_call_run. destruct (fails _ _); [done|].
  rewrite bindIO_run, wrap_call_run. destruct (fails _ _); [done|].
  rewrite bindIO_run. unfold call_ignoring_error at 1.
  rewrite bindIO_run, wrap_call_run. destruct (fails _ _).
  - intros [= _ <-]. exists []. split; [|by left].
    by rewrite <- !(assoc_L (++)).
  - rewrite wrap_call_run. destruct (fails _ _); [|done].
    intros [= _ <-]. eexists. split; [|by right].
    by rewrite <- !(assoc_L (++)).
Qed.

(** X15: when [Publish] fails with the error of a signature, the Release
    file of the distribution has been created, written with the release
    stanza, flushed and closed, and it is left as it is; after it, at most
    the detached signature has been made. *)
Theorem Publish_sign_error_keeps_release (p : PublishedRepo)
    (collection : PackageCollection) (repo : Repository) (cause : error) :
  (Publish p collection repo).1.1
  = Some (Wrapped "unable to sign Release file: %s" cause) →
  let path := filepath_Join [basePath p; "Release"] in
  ∃ (before : list Call) (release : Stanza) (signed : list Call),
    (Publish p collection repo).2
    = before ++ [CreateFile path; WriteTo path release; Flush path; Close path]
      ++ signed ∧
    (signed = [] ∨
     signed = [DetachedSign (FileName path) (FileName path +:+ ".gpg")]).
Proof.
  unfold Publish. rewrite load_packages_run.
  destruct (fails repo _) as [msg|]; [done|].
  destruct (fails (repo ++ _) _) as [msg|]; [done|].
  destruct (NewPackageListFromRefList _ _) as [?|lst]; [done|].
  destruct (decide (Len lst = 0%nat)); [done|].
  cbv zeta. set (p' := infer_Architectures p lst).
  set (archs := default [] (Architectures p')).
  destruct (decide (length archs = 0%nat)); [done|].
  assert (Hbase : basePath p' = basePath p).
  { unfold p', infer_Architectures. by destruct (Architectures p). }
  rewrite bindIO_run.
  destruct (publish_architectures p' lst archs ∅ _)
    as [[err|generatedFiles] repo2] eqn:Hloop.
  { intros [= ->]. exfalso.
    by apply (raises_not_sign_publish_architectures _ _ _ _ _ _ _ Hloop cause). }
  destruct (write_release p' _ repo2) as [[err|[]] repo3] eqn:Hrelease;
    [|done].
  intros [= ->]. cbv beta iota delta [fst snd].
  apply write_release_sign_error in Hrelease as (signed & -> & Hsigned).
  rewrite Hbase in Hsigned.
  exists repo2, (release_stanza p' archs generatedFiles), signed.
  split; [|done]. unfold release_calls. by rewrite Hbase.
Qed.

End FailingRuns.

(** *** The published repository *)

Section PublishedRepoFacts.

Context {world : Collaborators}.

(** X16: [Publish] changes nothing of the published repository but its
    architectures, and those only when none were supplied: a repository with
    supplied architectures, or one whose architectures an earlier [Publish]
    has set, comes out of [Publish] as it went in, whatever the outcome. *)
Theorem Publish_keeps_repository (p : PublishedRepo)
    (collection : PackageCollection) (repo : Repository) :
  let p' := (Publish p collection repo).1.2 in
  Prefix p' = Prefix p ∧ Distribution p' = Distribution p ∧
  Component p' = Component p ∧ SnapshotUUID p' = SnapshotUUID p ∧
  snapshot p' = snapshot p ∧
  (∀ supplied, Architectures p = Some supplied → p' = p).
Proof.
  cbv zeta.
  assert (Hinfer : ∀ lst,
            let p' := infer_Architectures p lst in
            Prefix p' = Prefix p ∧ Distribution p' = Distribution p ∧
            Component p' = Component p ∧ SnapshotUUID p' = SnapshotUUID p ∧
            snapshot p' = snapshot p ∧
            (∀ supplied, Architectures p = Some supplied → p' = p)).
  { intros lst. unfold infer_Architectures.
    by destruct (Architectures p) as [supplied|]. }
  unfold Publish.
  destruct (load_packages p collection repo) as [[err|lst] repo1]; [done|].
  destruct (decide (Len lst = 0%nat)); [done|]. cbv zeta.
  destruct (decide (length _ = 0%nat)); [apply Hinfer|].
  destruct (_ ≫= _) as [[err|?] repo2]; apply Hinfer.
Qed.

End PublishedRepoFacts.

(** *** Scans that keep nothing, and negation *)

Lemma scan_from_none (matches : Package → result bool) (pkgs : list Package)
    (acc : PackageList) :
  (∀ pkg, pkg ∈ pkgs → matches pkg = Ok false) →
  scan_from matches pkgs acc = Ok acc.
Proof.
  induction pkgs as [|pkg pkgs IH]; intros Hnone; [done|].
  simpl. rewrite Hnone by by left. simpl. apply IH.
  intros pkg' Hin. apply Hnone. by right.
Qed.

Section MoreQueryExtras.

Context {ops : PackageOps}.

(** X17: a pattern that [filepath.Match] rejects as malformed is no error
    of the query: on every field but [$Version] the pattern-match relation
    then matches no package, and the field query returns the empty list,
    where the regexp relation would panic. *)
Theorem FieldQuery_bad_pattern (field value : string) (lst : PackageList) :
  field ≠ "$Version" →
  (∀ k pkg, lst !! k = Some pkg →
            filepath_Match value (GetField pkg field) = None) →
  (∀ k pkg, lst !! k = Some pkg →
            Matches (FieldQuery field VersionPatternMatch value) pkg
            = Ok false) ∧
  Query (FieldQuery field VersionPatternMatch value) lst = Ok NewPackageList.
Proof.
  intros Hfield Hbad.
  assert (Hnone : ∀ k pkg, lst !! k = Some pkg →
            Matches (FieldQuery field VersionPatternMatch value) pkg
            = Ok false).
  { intros k pkg Hk. simpl. rewrite FieldMatches_raw by (done || by right).
    simpl. by rewrite (Hbad k pkg Hk). }
  split; [done|].
  apply scan_from_none. intros pkg [k Hk]%elem_of_packages. by eapply Hnone.
Qed.

(** X18: [Not] returns the rest of the list: when the query of a negation
    returns, the scan for the negated query returns too, and the two lists
    are disjoint and together make up the queried list. *)
Theorem Query_not_complement (Q : PackageQuery) (lst N : PackageList) :
  own_keys lst →
  Query (NotQuery Q) lst = Ok N →
  ∃ S, brute_force Q lst = Ok S ∧ N ##ₘ S ∧ N ∪ S = lst.
Proof.
  intros Hown HN.
  change (Scan lst (Matches (NotQuery Q)) = Ok N) in HN.
  apply Scan_Ok in HN as [Hall ->]; [|done].
  assert (HallQ : ∀ k pkg, lst !! k = Some pkg → is_Ok (Matches Q pkg)).
  { intros k pkg Hk. destruct (Hall k pkg Hk) as [b Hb].
    simpl in Hb. apply go_not_Ok in Hb as (a & Ha & _). by exists a. }
  exists (filter (λ kp, Matches Q kp.2 = Ok true) lst). split.
  { apply Scan_Ok; [done|]. by split. }
  split.
  - apply map_disjoint_spec. intros k pkg1 pkg2.
    rewrite !map_lookup_filter_Some. simpl.
    intros [Hk1 Hnot] [Hk2 Hyes]. rewrite Hk1 in Hk2.
    injection Hk2 as <-. simpl in Hnot. rewrite Hyes in Hnot.
    by vm_compute in Hnot.
  - apply map_eq. intros k. rewrite lookup_union.
    destruct (lst !! k) as [pkg|] eqn:Hk.
    + destruct (HallQ k pkg Hk) as [[] Hb].
      * assert (HS : filter (λ kp, Matches Q kp.2 = Ok true) lst !! k
                     = Some pkg) by by apply map_lookup_filter_Some.
        assert (HN : filter (λ kp, Matches (NotQuery Q) kp.2 = Ok true) lst
                       !! k = None).
        { apply map_lookup_filter_None. right. intros pkg' Hk'.
          rewrite Hk in Hk'. injection Hk' as <-. simpl. by rewrite Hb. }
        by rewrite HN, HS.
      * assert (HN : filter (λ kp, Matches (NotQuery Q) kp.2 = Ok true) lst
                       !! k = Some pkg).
        { apply map_lookup_filter_Some. split; [done|]. simpl.
          by rewrite Hb. }
        assert (HS : filter (λ kp, Matches Q kp.2 = Ok true) lst !! k = None).
        { apply map_lookup_filter_None. right. intros pkg' Hk'.
          rewrite Hk in Hk'. injection Hk' as <-. simpl. by rewrite Hb. }
        by rewrite HN, HS.
    + assert (HN : filter (λ kp, Matches (NotQuery Q) kp.2 = Ok true) lst
                     !! k = None) by (apply map_lookup_filter_None; by left).
      assert (HS : filter (λ kp, Matches Q kp.2 = Ok true) lst !! k = None)
        by (apply map_lookup_filter_None; by left).
      by rewrite HN, HS.
Qed.

End MoreQueryExtras.

(* ################################################################# *)
(** * The further properties on the sample data *)

Lemma Query_returns_packages_of_list_witness :
  let q := AndQuery (PkgQuery "zsh" "5.8" "amd64")
                    (FieldQuery "Section" VersionEqual "shells") in
  (keyed sample_list ∧
   @Query sample_ops q sample_list = Ok {[Key zsh := zsh]}) ∧
  (({[Key zsh := zsh]} : PackageList) ⊆ sample_list ∧
   keyed ({[Key zsh := zsh]} : PackageList)).
Proof.
  intros q.
  assert (Hkeyed : keyed sample_list)
    by (apply well_keyed_keyed; by_evaluation).
  assert (HR : @Query sample_ops q sample_list = Ok {[Key zsh := zsh]})
    by by_evaluation.
  split; [exact (conj Hkeyed HR)|].
  exact (@Query_returns_packages_of_list sample_ops q sample_list _ Hkeyed HR).
Defined.

Lemma Query_commutative_witness :
  let A := PkgQuery "zsh" "5.8" "amd64" in
  let B := FieldQuery "Section" VersionEqual "shells" in
  (keyed sample_list ∧ implemented A ∧ implemented B) ∧
  (@Query sample_ops (AndQuery A B) sample_list
   = @Query sample_ops (AndQuery B A) sample_list ∧
   @Query sample_ops (OrQuery A B) sample_list
   = @Query sample_ops (OrQuery B A) sample_list).
Proof.
  intros A B.
  assert (Hkeyed : keyed sample_list)
    by (apply well_keyed_keyed; by_evaluation).
  assert (HA : implemented A) by exact I.
  assert (HB : implemented B) by (by_evaluation).
  split; [exact (conj Hkeyed (conj HA HB))|].
  exact (@Query_commutative sample_ops A B sample_list Hkeyed HA HB).
Defined.

Lemma Query_or_idempotent_witness :
  let A := PkgQuery "zsh" "5.8" "amd64" in
  (keyed sample_list ∧ Fast A = true) ∧
  @Query sample_ops (OrQuery A A) sample_list = @Query sample_ops A sample_list.
Proof.
  intros A.
  assert (Hkeyed : keyed sample_list)
    by (apply well_keyed_keyed; by_evaluation).
  assert (Hfast : Fast A = true) by reflexivity.
  split; [exact (conj Hkeyed Hfast)|].
  exact (@Query_or_idempotent sample_ops A sample_list Hkeyed Hfast).
Defined.

Lemma FieldQuery_string_order_witness :
  "Section" ≠ "$Version" ∧
  (@Matches sample_ops (FieldQuery "Section" VersionGreater "doc") zsh
   = go_not (@Matches sample_ops
               (FieldQuery "Section" VersionLessOrEqual "doc") zsh) ∧
   @Matches sample_ops (FieldQuery "Section" VersionLess "doc") zsh
   = go_not (@Matches sample_ops
               (FieldQuery "Section" VersionGreaterOrEqual "doc") zsh) ∧
   ("Section" ≠ "$Architecture" →
    @Matches sample_ops (FieldQuery "Section" VersionEqual "doc") zsh
    = go_and (@Matches sample_ops
                (FieldQuery "Section" VersionGreaterOrEqual "doc") zsh)
             (@Matches sample_ops
                (FieldQuery "Section" VersionLessOrEqual "doc") zsh))).
Proof.
  assert (Hfield : "Section" ≠ "$Version") by by_evaluation.
  split; [exact Hfield|].
  exact (@FieldQuery_string_order sample_ops "Section" "doc" zsh Hfield).
Defined.

Lemma FieldQuery_bad_pattern_witness :
  ("Section" ≠ "$Version" ∧
   (∀ k pkg, sample_list !! k = Some pkg →
             @filepath_Match strict_ops "[" (@GetField strict_ops pkg "Section")
             = None)) ∧
  ((∀ k pkg, sample_list !! k = Some pkg →
             @Matches strict_ops
               (FieldQuery "Section" VersionPatternMatch "[") pkg
             = Ok false) ∧
   @Query strict_ops (FieldQuery "Section" VersionPatternMatch "[") sample_list
   = Ok NewPackageList).
Proof.
  assert (Hfield : "Section" ≠ "$Version") by by_evaluation.
  assert (Hbad : ∀ k pkg, sample_list !! k = Some pkg →
            @filepath_Match strict_ops "[" (@GetField strict_ops pkg "Section")
            = None) by (by intros k pkg _).
  split; [exact (conj Hfield Hbad)|].
  exact (@FieldQuery_bad_pattern strict_ops "Section" "[" sample_list
           Hfield Hbad).
Defined.

Lemma Query_not_complement_witness :
  let Q := PkgQuery "zsh" "5.8" "amd64" in
  (own_keys sample_list ∧
   @Query sample_ops (NotQuery Q) sample_list
   = Ok {[Key bash_doc := bash_doc]}) ∧
  ∃ S, @brute_force sample_ops Q sample_list = Ok S ∧
       ({[Key bash_doc := bash_doc]} : PackageList) ##ₘ S ∧
       ({[Key bash_doc := bash_doc]} : PackageList) ∪ S = sample_list.
Proof.
  intros Q.
  assert (Hown : own_keys sample_list)
    by (apply keyed_own_keys, well_keyed_keyed; by_evaluation).
  assert (HN : @Query sample_ops (NotQuery Q) sample_list
               = Ok {[Key bash_doc := bash_doc]}) by by_evaluation.
  split; [exact (conj Hown HN)|].
  exact (@Query_not_complement sample_ops Q sample_list _ Hown HN).
Defined.

Lemma Publish_success_calls_witness :
  let out := @Publish sample_collaborators sample_repo sample_collection [] in
  out.1.1 = None ∧
  ∃ (lst : PackageList) (generatedFiles : gmap string ChecksumInfo),
    NewPackageListFromRefList (RefList (snapshot sample_repo)) sample_collection
    = inr lst ∧
    let p' := out.1.2 in
    let archs := default [] (Architectures p') in
    out.2
    = [] ++ @first_directories sample_collaborators sample_repo
      ++ (arch ← archs; @architecture_calls sample_collaborators p' lst arch)
      ++ @release_calls sample_collaborators p'
           (@release_stanza sample_collaborators p' archs generatedFiles).
Proof.
  intros out.
  assert (Hok : out.1.1 = None) by by_evaluation.
  split; [exact Hok|].
  exact (@Publish_success_calls sample_collaborators sample_repo
           sample_collection [] Hok).
Defined.

Lemma Publish_success_created_files_witness :
  let out := @Publish sample_collaborators sample_repo sample_collection [] in
  out.1.1 = None ∧
  ∃ calls,
    out.2 = [] ++ calls ∧
    ∀ path,
      CreateFile path ∈ calls ↔
      path = @filepath_Join sample_collaborators
               [@basePath sample_collaborators out.1.2; "Release"] ∨
      ∃ arch, arch ∈ default [] (Architectures out.1.2) ∧
              path = @filepath_Join sample_collaborators
                       [@basePath sample_collaborators out.1.2;
                        @relativePath sample_collaborators out.1.2 arch].
Proof.
  intros out.
  assert (Hok : out.1.1 = None) by by_evaluation.
  split; [exact Hok|].
  exact (@Publish_success_created_files sample_collaborators sample_repo
           sample_collection [] Hok).
Defined.

Lemma Publish_success_linked_packages_witness :
  let out := @Publish sample_collaborators sample_repo sample_collection [] in
  out.1.1 = None ∧
  ∃ (lst : PackageList) (calls : list Call),
    NewPackageListFromRefList (RefList (snapshot sample_repo)) sample_collection
    = inr lst ∧
    out.2 = [] ++ calls ∧
    ∀ pkg prefix component,
      LinkFromPool pkg prefix component ∈ calls ↔
      prefix = Prefix sample_repo ∧ component = Component sample_repo ∧
      (∃ k, lst !! k = Some pkg) ∧
      ∃ arch, arch ∈ default [] (Architectures out.1.2) ∧
              MatchesArchitecture pkg arch = true.
Proof.
  intros out.
  assert (Hok : out.1.1 = None) by by_evaluation.
  split; [exact Hok|].
  exact (@Publish_success_linked_packages sample_collaborators sample_repo
           sample_collection [] Hok).
Defined.

Lemma Publish_unwrapped_error_is_MkDir_witness :
  let world := failing_collaborators readonly_i386 in
  (@Publish world sample_repo sample_collection []).1.1
  = Some (External "permission denied") ∧
  ∃ history path, @fails world history (MkDir path) = Some "permission denied".
Proof.
  intros world.
  assert (Herr : (@Publish world sample_repo sample_collection []).1.1
                 = Some (External "permission denied")) by by_evaluation.
  split; [exact Herr|].
  exact (@Publish_unwrapped_error_is_MkDir world sample_repo sample_collection
           [] "permission denied" Herr).
Defined.

Lemma Publish_release_header_witness :
  let out := @Publish sample_collaborators sample_repo sample_collection [] in
  out.1.1 = None ∧
  ∃ release : Stanza,
    WriteTo (@filepath_Join sample_collaborators
               [@basePath sample_collaborators out.1.2; "Release"]) release
      ∈ out.2 ∧
    release !! "Origin"
    = Some (Prefix sample_repo +:+ " " +:+ Distribution sample_repo) ∧
    release !! "Label"
    = Some (Prefix sample_repo +:+ " " +:+ Distribution sample_repo) ∧
    release !! "Codename" = Some (Distribution sample_repo) ∧
    release !! "Date" = Some (@Now sample_collaborators) ∧
    release !! "Components" = Some (Component sample_repo) ∧
    release !! "Architectures"
    = Some (String.concat " " (default [] (Architectures out.1.2))) ∧
    release !! "Description" = Some ("Generated by aptly" +:+ newline).
Proof.
  intros out.
  assert (Hok : out.1.1 = None) by by_evaluation.
  split; [exact Hok|].
  exact (@Publish_release_header sample_collaborators sample_repo
           sample_collection [] Hok).
Defined.

Lemma Publish_sign_error_keeps_release_witness :
  let world := failing_collaborators no_clearsign in
  let cause := External "gpg: signing failed" in
  let path := @filepath_Join world [@basePath world sample_repo; "Release"] in
  (@Publish world sample_repo sample_collection []).1.1
  = Some (Wrapped "unable to sign Release file: %s" cause) ∧
  ∃ (before : list Call) (release : Stanza) (signed : list Call),
    (@Publish world sample_repo sample_collection []).2
    = before ++ [CreateFile path; WriteTo path release; Flush path; Close path]
      ++ signed ∧
    (signed = [] ∨
     signed = [DetachedSign (@FileName world path)
                            (@FileName world path +:+ ".gpg")]).
Proof.
  intros world cause path.
  assert (Herr : (@Publish world sample_repo sample_collection []).1.1
                 = Some (Wrapped "unable to sign Release file: %s" cause))
    by by_evaluation.
  split; [exact Herr|].
  exact (@Publish_sign_error_keeps_release world sample_repo sample_collection
           [] cause Herr).
Defined.

(** With an unwritable i386 directory the run stops after the amd64
    round: the i386 Packages file and the Release file are not created. *)
Example Publish_stops_at_failed_directory :
  let out := @Publish (failing_collaborators readonly_i386) sample_repo
               sample_collection [] in
  (CreateFile "debian/dists/stable/main/binary-amd64/Packages" ∈ out.2) ∧
  (CreateFile "debian/dists/stable/main/binary-i386/Packages" ∉ out.2) ∧
  (CreateFile "debian/dists/stable/Release" ∉ out.2).
Proof. by_evaluation. Qed.
